(** * rail-traction: train dynamics and signalling kernel

    A shallow embedding of the five numerical routines of [train_sim]
    ([slope.py], [curve_resistance.py], [acceleration.py], [braking.py],
    [block_occupancy.py]) together with the properties stated about them.

    ** Numeric model

    The Python code computes on IEEE binary64 numbers.  Here a finite
    number is an exact rational ([Q]); the operations [+ - * /] and the
    comparisons are the exact ones, so rounding, overflow and the
    propagation of non-finite values are outside the model.  Three places
    where the code itself creates or documents a non-finite value are kept:

    - the [np.nan] with which the interval calculators and the block
      scheduler pre-fill their outputs is [None] of [option Q];
    - a curve radius may be [np.inf] (straight track): type [radius];
    - a true division by zero (which NumPy answers with [inf] or [nan]
      and a warning) has no counterpart in [Q], where [x / 0] is [0]; the
      statements about the interval calculators therefore assume a valid
      profile, for which no divisor is zero, and the integrators divide
      only by the mass and by a number that is at least [1e-6].

    Exceptions raised by the interpreter or by NumPy ([ZeroDivisionError],
    [ValueError], [IndexError]) are values of the error monad [result]. *)

From Stdlib Require Import QArith Qround Qabs Lqa ZArith Lia Sorted.
From stdpp Require Import base tactics option list strings.

Local Open Scope Q_scope.

(** ** Python and NumPy primitives used by the kernel *)

Module Py.

Inductive exn : Set :=
  | ZeroDivisionError
  | ValueError
  | IndexError.

Inductive result (A : Type) : Type :=
  | Ok (a : A)
  | Raise (e : exn).

Arguments Ok {A} a.
Arguments Raise {A} e.

#[global] Instance result_ret : MRet result := @Ok.

#[global] Instance result_bind : MBind result := λ A B f m,
  match m with
  | Ok a => f a
  | Raise e => Raise e
  end.

(** The computation raises nothing but [IndexError]. *)
Definition index_errors_only {A} (m : result A) : Prop :=
  ∀ e, m = Raise e → e = IndexError.

(** [x < y] and [x <= y] as the interpreter evaluates them. *)
Definition Qltb (x y : Q) : bool := negb (Qle_bool y x).
Definition Qleb (x y : Q) : bool := Qle_bool x y.

(** The builtins [max(a, b)] and [min(a, b)]: the first argument is kept
    unless the second is strictly greater (resp. smaller). *)
Definition py_max (a b : Q) : Q := if Qltb a b then b else a.
Definition py_min (a b : Q) : Q := if Qltb b a then b else a.

(** [np.clip(x, lo, hi)] is [minimum(maximum(x, lo), hi)]. *)
Definition np_clip (x lo hi : Q) : Q :=
  let y := if Qltb x lo then lo else x in
  if Qltb hi y then hi else y.

(** True division [x / y]. *)
Definition np_div (x y : Q) : Q := x / y.

(** Float floor division [x // y]: the floor of the exact quotient, and
    [ZeroDivisionError] for a zero divisor. *)
Definition py_floordiv (x y : Q) : result Q :=
  if Qeq_bool y 0 then Raise ZeroDivisionError
  else Ok (inject_Z (Qfloor (x / y))).

(** [int(x)] truncates towards zero. *)
Definition py_int (x : Q) : Z := Z.quot (Qnum x) (Zpos (Qden x)).

(** [round(x)] rounds to the nearest integer, ties to the even one. *)
Definition py_round (x : Q) : Z :=
  let f := Qfloor x in
  let d := x - inject_Z f in
  if Qltb d (1 # 2) then f
  else if Qltb (1 # 2) d then (f + 1)%Z
  else if Z.even f then f else (f + 1)%Z.

(** [np.zeros(n)]: negative dimensions are refused. *)
Definition np_zeros (n : Z) : result (list Q) :=
  if (n <? 0)%Z then Raise ValueError
  else Ok (replicate (Z.to_nat n) 0).

(** [a[i]] and [a[i] = x] for a non-negative index. *)
Definition getitem {A} (a : list A) (i : nat) : result A :=
  match a !! i with
  | Some x => Ok x
  | None => Raise IndexError
  end.

Definition setitem {A} (a : list A) (i : nat) (x : A) : result (list A) :=
  if decide (i < length a)%nat then Ok (<[i:=x]> a) else Raise IndexError.

(** [a[i]] for an arbitrary integer index: a negative [i] counts from the
    end of the array, and only [i < -len(a)] or [i >= len(a)] raises. *)
Definition getitem_int {A} (a : list A) (i : Z) : result A :=
  let n := Z.of_nat (length a) in
  if (i <? 0)%Z
  then (if (i + n <? 0)%Z then Raise IndexError
        else getitem a (Z.to_nat (i + n)))
  else getitem a (Z.to_nat i).

(** [a[:k]] for [k >= 0]. *)
Definition slice_to {A} (a : list A) (k : nat) : list A := take k a.

(** [np.where(mask)[0]]: the indices at which [mask] holds, ascending. *)
Fixpoint np_where_from (i : nat) (mask : list bool) : list nat :=
  match mask with
  | [] => []
  | b :: m => if b then i :: np_where_from (S i) m
              else np_where_from (S i) m
  end.

Definition np_where (mask : list bool) : list nat := np_where_from 0 mask.

(** [enumerate(l)]. *)
Fixpoint enumerate_from {A} (i : nat) (l : list A) : list (nat * A) :=
  match l with
  | [] => []
  | x :: l' => (i, x) :: enumerate_from (S i) l'
  end.

Definition enumerate {A} (l : list A) : list (nat * A) := enumerate_from 0 l.

(** A [for] loop whose body may raise, threading the loop-carried
    variables as [acc]. *)
Fixpoint for_each {A S} (l : list A) (body : S → A → result S) (acc : S)
  : result S :=
  match l with
  | [] => Ok acc
  | x :: l' => acc' ← body acc x; for_each l' body acc'
  end.

(** The mask [(lo < pos[1:]) & (hi >= pos[:-1])] shared by the two
    interval calculators. *)
Definition overlap_mask (pos : list Q) (lo hi : Q) : list bool :=
  zip_with andb ((λ p, Qltb lo p) <$> tail pos)
                ((λ p, Qleb p hi) <$> removelast pos).

End Py.

Import Py.

(** ** Piecewise profiles, as the specification describes them *)

Module Profile.

(** Breakpoints strictly increasing, one value per interval. *)
Definition strictly_increasing (pos : list Q) : Prop :=
  ∀ i p q, pos !! i = Some p → pos !! S i = Some q → p < q.

Definition valid_profile {V} (pos : list Q) (vals : list V) : Prop :=
  strictly_increasing pos ∧ length vals = (length pos - 1)%nat.

(** An executable test of the two conditions. *)
Fixpoint increasing_check (pos : list Q) : bool :=
  match pos with
  | p :: (q :: _) as rest => Qltb p q && increasing_check rest
  | _ => true
  end.

Definition valid_profile_check {V} (pos : list Q) (vals : list V) : bool :=
  increasing_check pos && (length vals =? length pos - 1)%nat.

(** Interval [j] overlaps the occupied span [[lo, hi]] when
    [lo < pos[j+1]] and [hi >= pos[j]]. *)
Definition overlaps (pos : list Q) (lo hi : Q) (j : nat) : bool :=
  match pos !! j, pos !! S j with
  | Some p0, Some p1 => Qltb lo p1 && Qleb p0 hi
  | _, _ => false
  end.

Definition overlapping_intervals (pos : list Q) (lo hi : Q) : list nat :=
  filter (λ j, overlaps pos lo hi j = true) (seq 0 (length pos - 1)).

(** The sum of [c j] times the length of the occupied span counted for
    interval [j], over the overlapping intervals [I] in ascending order:
    the first one is clipped at [lo], the last one at [hi], the ones in
    between count in full. *)
Fixpoint clipped_sum (c p : nat → Q) (lo hi : Q) (first : bool)
    (I : list nat) : Q :=
  match I with
  | [] => 0
  | j :: I' =>
      c j * ((match I' with [] => hi | _ => p (S j) end)
             - (if first then lo else p j))
      + clipped_sum c p lo hi false I'
  end.

End Profile.

Import Profile.

(** ** [slope.py] *)

Module Slope.

(** The body of [for i, idx in enumerate(inkl_intv)], with [n] the
    length of [inkl_intv]; the loop-carried variable is [total]. *)
Definition add_segment (lutning_pos lutning : list Q) (pos0 pos1 : Q)
    (n : nat) (total : Q) (ix : nat * nat) : result Q :=
  let '(i, idx) := ix in
  seg ←
    (if (i =? 0)%nat then
       v ← getitem lutning idx;
       p ← getitem lutning_pos (idx + 1);
       Ok (v * (p - pos0))
     else if (i =? n - 1)%nat then
       v ← getitem lutning idx;
       p ← getitem lutning_pos idx;
       Ok (v * (pos1 - p))
     else
       v ← getitem lutning idx;
       p1 ← getitem lutning_pos (idx + 1);
       p0 ← getitem lutning_pos idx;
       Ok (v * (p1 - p0)));
  Ok (total + seg).

(** One iteration of [for k, xp in enumerate(x_pos)]; the value is the
    content of [ekv_slope[k]] afterwards ([None] is the [nan] of the
    initial fill). *)
Definition slope_at (lutning_pos lutning : list Q) (train_length xp : Q)
  : result (option Q) :=
  let pos0 := xp - train_length in
  let pos1 := xp in
  let inkl_intv := np_where (overlap_mask lutning_pos pos0 pos1) in
  let n := length inkl_intv in
  if (n =? 1)%nat then
    idx ← getitem inkl_intv 0;
    v ← getitem lutning idx;
    Ok (Some v)
  else if (1 <? n)%nat then
    total ← for_each (enumerate inkl_intv)
                     (add_segment lutning_pos lutning pos0 pos1 n) 0;
    Ok (Some (np_div total (pos1 - pos0)))
  else Ok None.

Definition calculate_equivalent_slope
    (lutning_pos lutning x_pos : list Q) (train_length : Q)
  : result (list (option Q)) :=
  mapM (slope_at lutning_pos lutning train_length) x_pos.

(** The specification's value for a span overlapping several intervals:
    the length-weighted sum of the interval values, normalised by the
    occupied length. *)
Definition weighted_average (lutning_pos lutning : list Q)
    (train_length xp : Q) : Q :=
  let lo := xp - train_length in
  clipped_sum (λ j, nth j lutning 0) (λ j, nth j lutning_pos 0) lo xp true
              (overlapping_intervals lutning_pos lo xp)
  / (xp - lo).

End Slope.

(** ** [curve_resistance.py] *)

Module Curve.

(** A curve radius in metres; [Straight] is [np.inf]. *)
Inductive radius : Set :=
  | Finite (r : Q)
  | Straight.

(** [4.91 / (r - 30)] if [r < 300], else [6.3 / (r - 55)]; for
    [r = np.inf] the comparison fails and [6.3 / inf] is [0.0]. *)
Definition unit_resistance (r : radius) : Q :=
  match r with
  | Finite r =>
      if Qltb r 300 then np_div (491 # 100) (r - 30)
      else np_div (63 # 10) (r - 55)
  | Straight => 0
  end.

(** The body of [for i, idx in enumerate(inkl_intv)]; the loop-carried
    variable is [curve_force], which the first iteration overwrites. *)
Definition add_segment (curve_pos : list Q) (curve_radius : list radius)
    (train_mass pos0 pos1 : Q) (n : nat) (curve_force : Q) (ix : nat * nat)
  : result Q :=
  let '(i, idx) := ix in
  r ← getitem curve_radius idx;
  let tmp := np_div (unit_resistance r * train_mass) (pos1 - pos0) in
  if (i =? 0)%nat then
    p ← getitem curve_pos (idx + 1);
    Ok (tmp * (p - pos0))
  else if (i =? n - 1)%nat then
    p ← getitem curve_pos idx;
    Ok (curve_force + tmp * (pos1 - p))
  else
    p1 ← getitem curve_pos (idx + 1);
    p0 ← getitem curve_pos idx;
    Ok (curve_force + tmp * (p1 - p0)).

Definition resistance_at (curve_pos : list Q) (curve_radius : list radius)
    (train_length train_mass xp : Q) : result (option Q) :=
  let pos0 := xp - train_length in
  let pos1 := xp in
  let inkl_intv := np_where (overlap_mask curve_pos pos0 pos1) in
  let n := length inkl_intv in
  if (n =? 1)%nat then
    idx ← getitem inkl_intv 0;
    r ← getitem curve_radius idx;
    Ok (Some (unit_resistance r * train_mass))
  else if (1 <? n)%nat then
    curve_force ← for_each (enumerate inkl_intv)
                    (add_segment curve_pos curve_radius train_mass
                                 pos0 pos1 n) 0;
    Ok (Some curve_force)
  else Ok None.

Definition calculate_curve_resistance
    (curve_pos : list Q) (curve_radius : list radius) (x_pos : list Q)
    (train_length train_mass : Q) : result (list (option Q)) :=
  mapM (resistance_at curve_pos curve_radius train_length train_mass) x_pos.

(** The force an interval contributes on its own,
    [unit_resistance(r) * mass_kg]. *)
Definition interval_force (curve_radius : list radius) (train_mass : Q)
    (j : nat) : Q :=
  unit_resistance (nth j curve_radius Straight) * train_mass.

(** The un-normalised reading for a span overlapping several intervals:
    interval forces pro-rated by absolute overlap length and summed, with no
    division by the occupied length. *)
Definition force_sum_unnormalized (curve_pos : list Q)
    (curve_radius : list radius) (train_length train_mass xp : Q) : Q :=
  let lo := xp - train_length in
  clipped_sum (interval_force curve_radius train_mass)
              (λ j, nth j curve_pos 0) lo xp true
              (overlapping_intervals curve_pos lo xp).

(** The same sum divided by the occupied length [xp - (xp - train_length)]. *)
Definition force_average (curve_pos : list Q) (curve_radius : list radius)
    (train_length train_mass xp : Q) : Q :=
  force_sum_unnormalized curve_pos curve_radius train_length train_mass xp
  / (xp - (xp - train_length)).

(** Radii at which Roeckl's formula divides by zero. *)
Definition radius_defined (r : radius) : Prop :=
  match r with
  | Finite r => ¬ r == 30
  | Straight => True
  end.

End Curve.

(** ** [train_config.py] *)

Module Config.

Record TrainConfig : Type := {
  mass_kg : Q;
  tractive_effort_n : Q;
  train_type : string
}.

End Config.

(** ** Loops with [break] *)

Module Loop.

Inductive flow (S : Type) : Type :=
  | Continue (s : S)
  | Break (s : S).

Arguments Continue {S} s.
Arguments Break {S} s.

(** [for x in l: body], where the body may raise or [break]. *)
Fixpoint for_each_break {A S} (l : list A) (body : S → A → result (flow S))
    (acc : S) : result S :=
  match l with
  | [] => Ok acc
  | x :: l' =>
      r ← body acc x;
      match r with
      | Continue acc' => for_each_break l' body acc'
      | Break acc' => Ok acc'
      end
  end.

(** [range(lo, hi)] for a non-negative [lo]. *)
Definition py_range (lo : nat) (hi : Z) : list nat :=
  seq lo (Z.to_nat hi - lo).

(** [n_steps = int(distance // dt) + 1], the first statement of both
    integrators. *)
Definition requested_steps (distance dt : Q) : result Z :=
  q ← py_floordiv distance dt;
  Ok (py_int q + 1)%Z.

(** The content of an array of [n] zeros once the entries below [i] have
    received the values [f 0 .. f (i - 1)]. *)
Definition filled (n : nat) (f : nat → Q) (i : nat) : list Q :=
  (f <$> seq 0 i) ++ replicate (n - i) 0.

End Loop.

Import Loop.

(** ** [acceleration.py] *)

Module Accel.

Import Config.

(** Gravity [m/s^2], the module constant [g]. *)
Definition g : Q := 981 # 100.

(** The four arrays [s], [v], [a], [F_trac]; also the returned dict. *)
Record profile : Type := {
  distance : list Q;
  speed : list Q;
  acceleration : list Q;
  tractive_effort : list Q
}.

Section Integrator.

Variable train_config : TrainConfig.
Variables slope_percent distance_m v_max dt : Q.
Variables A B C adhesion_coef tunnel_factor curve_resistance max_acc : Q.

(** The body of [for i in range(1, n_steps)]. *)
Definition step (st : profile) (i : nat) : result (flow profile) :=
  let mass := mass_kg train_config in
  let tractive_effort := tractive_effort_n train_config in
  let '{| distance := s; speed := v; acceleration := a;
          tractive_effort := F_trac |} := st in
  v_prev ← getitem v (i - 1);
  let F_res := A + B * v_prev + C * v_prev ^ 2 in
  let F_slope := mass * g * np_div slope_percent 100 in
  let F_tunnel := tunnel_factor * v_prev ^ 2 in
  let F_curve := curve_resistance in
  let F_total_res := F_res + F_slope + F_tunnel + F_curve in
  let F_adhesion := adhesion_coef * mass * g in
  let F_trac_i := py_min tractive_effort F_adhesion in
  F_trac ← setitem F_trac i F_trac_i;
  let F_net := F_trac_i - F_total_res in
  let a_i := np_clip (np_div F_net mass) (- max_acc) max_acc in
  a ← setitem a i a_i;
  v_prev ← getitem v (i - 1);
  let v_i := py_max 0 (py_min (v_prev + a_i * dt) v_max) in
  v ← setitem v i v_i;
  s_prev ← getitem s (i - 1);
  let s_i := s_prev + v_i * dt in
  s ← setitem s i s_i;
  if Qleb distance_m s_i then
    Ok (Break {| distance := slice_to s (i + 1);
                 speed := slice_to v (i + 1);
                 acceleration := slice_to a (i + 1);
                 tractive_effort := slice_to F_trac (i + 1) |})
  else
    Ok (Continue {| distance := s; speed := v; acceleration := a;
                    tractive_effort := F_trac |}).

Definition calculate_acceleration_profile : result profile :=
  n_steps ← requested_steps distance_m dt;
  s ← np_zeros n_steps;
  v ← np_zeros n_steps;
  a ← np_zeros n_steps;
  F_trac ← np_zeros n_steps;
  v ← setitem v 0 0;
  s ← setitem s 0 0;
  for_each_break (py_range 1 n_steps) step
    {| distance := s; speed := v; acceleration := a;
       tractive_effort := F_trac |}.

(** The recurrence of the specification, step by step and without
    arrays: [(s_i, v_i, a_i, F_i)] from [(s_{i-1}, v_{i-1})]. *)
Definition next_state (st : Q * Q * Q * Q) : Q * Q * Q * Q :=
  let '(s_prev, v_prev, _, _) := st in
  let mass := mass_kg train_config in
  let F_res := A + B * v_prev + C * v_prev ^ 2 in
  let F_slope := mass * g * np_div slope_percent 100 in
  let F_tunnel := tunnel_factor * v_prev ^ 2 in
  let F_total_res := F_res + F_slope + F_tunnel + curve_resistance in
  let F := py_min (tractive_effort_n train_config)
                  (adhesion_coef * mass * g) in
  let a_i := np_clip (np_div (F - F_total_res) mass) (- max_acc) max_acc in
  let v_i := py_max 0 (py_min (v_prev + a_i * dt) v_max) in
  (s_prev + v_i * dt, v_i, a_i, F).

Fixpoint state_at (i : nat) : Q * Q * Q * Q :=
  match i with
  | O => (0, 0, 0, 0)
  | S j => next_state (state_at j)
  end.

Definition s_at (i : nat) : Q := (state_at i).1.1.1.
Definition v_at (i : nat) : Q := (state_at i).1.1.2.
Definition a_at (i : nat) : Q := (state_at i).1.2.
Definition F_at (i : nat) : Q := (state_at i).2.

(** The stopping condition [s_i >= distance]. *)
Definition stops (i : nat) : bool := Qleb distance_m (s_at i).

(** The index at which a run of [n] requested steps ends: the first
    [i >= 1] that stops, or [n - 1] when none does. *)
Definition stop_index (n : nat) : nat :=
  default (n - 1)%nat (find stops (seq 1 (n - 1))).

(** The profile holding the states [0 .. k]. *)
Definition profile_upto (k : nat) : profile :=
  {| distance := s_at <$> seq 0 (S k);
     speed := v_at <$> seq 0 (S k);
     acceleration := a_at <$> seq 0 (S k);
     tractive_effort := F_at <$> seq 0 (S k) |}.

End Integrator.

End Accel.

(** ** [braking.py] *)

Module Braking.

Record profile : Type := {
  distance : list Q;
  speed : list Q;
  deceleration : list Q
}.

Section Integrator.

(** [np.sqrt] on a non-negative argument; every statement below holds
    for whatever value it returns. *)
Variable np_sqrt : Q → Q.

Variables initial_speed distance_m : Q.
Variable slope_profile : option (list Q).
Variables deceleration_profile min_dec max_dec dt g : Q.

Definition step (st : profile) (i : nat) : result (flow profile) :=
  let '{| distance := s; speed := v; deceleration := a |} := st in
  slope ← match slope_profile with
           | Some sp => getitem sp (i - 1)
           | None => Ok 0
           end;
  let dec := deceleration_profile + g * slope in
  let dec := py_max min_dec (py_min dec max_dec) in
  a ← setitem a i dec;
  v_prev ← getitem v (i - 1);
  let v1 := np_sqrt (py_max 0 (2 * dec + v_prev ^ 2)) in
  let v2 := np_div (v_prev + v1) 2 in
  let v_i := py_max 0 (v_prev + np_div (dec * 1) (py_max v2 (1 # 1000000))) in
  v ← setitem v i v_i;
  s_prev ← getitem s (i - 1);
  let s_i := s_prev + v_i * dt in
  s ← setitem s i s_i;
  if Qleb v_i 0 || Qleb distance_m s_i then
    Ok (Break {| distance := slice_to s (i + 1);
                 speed := slice_to v (i + 1);
                 deceleration := slice_to a (i + 1) |})
  else
    Ok (Continue {| distance := s; speed := v; deceleration := a |}).

Definition calculate_braking_profile : result profile :=
  n_steps ← requested_steps distance_m dt;
  s ← np_zeros n_steps;
  v ← np_zeros n_steps;
  a ← np_zeros n_steps;
  v ← setitem v 0 initial_speed;
  s ← setitem s 0 0;
  for_each_break (py_range 1 n_steps) step
    {| distance := s; speed := v; deceleration := a |}.

(** The recurrence of the specification: the slope read at step [i] is
    [slope_profile[i-1]], taken as [0] where the profile has no entry. *)
Definition slope_or_zero (j : nat) : Q :=
  match slope_profile with
  | Some sp => nth j sp 0
  | None => 0
  end.

Definition clamped_dec (j : nat) : Q :=
  py_max min_dec (py_min (deceleration_profile + g * slope_or_zero j) max_dec).

Definition next_state (j : nat) (st : Q * Q * Q) : Q * Q * Q :=
  let '(s_prev, v_prev, _) := st in
  let dec := clamped_dec j in
  let v1 := np_sqrt (py_max 0 (2 * dec + v_prev ^ 2)) in
  let v2 := np_div (v_prev + v1) 2 in
  let v_i := py_max 0 (v_prev + np_div (dec * 1) (py_max v2 (1 # 1000000))) in
  (s_prev + v_i * dt, v_i, dec).

Fixpoint state_at (i : nat) : Q * Q * Q :=
  match i with
  | O => (0, initial_speed, 0)
  | S j => next_state j (state_at j)
  end.

Definition s_at (i : nat) : Q := (state_at i).1.1.
Definition v_at (i : nat) : Q := (state_at i).1.2.
Definition a_at (i : nat) : Q := (state_at i).2.

(** The stopping condition [v_i <= 0 or s_i >= distance]. *)
Definition stops (i : nat) : bool :=
  Qleb (v_at i) 0 || Qleb distance_m (s_at i).

(** The number of integration steps a run of [n] requested steps
    executes when every slope lookup succeeds. *)
Definition stop_index (n : nat) : nat :=
  default (n - 1)%nat (find stops (seq 1 (n - 1))).

Definition profile_upto (k : nat) : profile :=
  {| distance := s_at <$> seq 0 (S k);
     speed := v_at <$> seq 0 (S k);
     deceleration := a_at <$> seq 0 (S k) |}.

(** The slope profile has an entry for each of the first [k] steps. *)
Definition covers (k : nat) : Prop :=
  match slope_profile with
  | Some sp => (k ≤ length sp)%nat
  | None => True
  end.

End Integrator.

(** A rational square root for evaluating concrete runs: exact on the
    squares of rationals, and otherwise the root truncated to a multiple
    of [1 / (2^53 * den)]. *)
Definition sqrt_trunc (x : Q) : Q :=
  let n := Qnum x in
  let d := Zpos (Qden x) in
  let k := (2 ^ 53)%Z in
  Qred (Qmake (Z.sqrt (n * d * k * k)) (Z.to_pos (d * k))).

End Braking.

(** ** [block_occupancy.py] *)

Module Blocks.

(** One row of [mb_times]; [None] is the [nan] of the initial fill. *)
Record row : Type := {
  speed_diff_at_release : option Q;
  matched_index : option nat;
  booking_time : option Q;
  arrival_time : option Q;
  release_time_at : option Q
}.

Section Scheduler.

Variables speed_profile time_profile release_speed : list Q.
Variable train_length : Q.
Variables overlap release_time setting_time : list Q.
Variables reserve_before_arrival v_tol : Q.

Definition len_time : Z := Z.of_nat (length time_profile).

(** The body of [for k, bp in enumerate(block_positions)]. *)
Definition block_row (k : nat) (bp : Z) : result row :=
  rs ← getitem release_speed k;
  let speed_diff := (λ v, Qabs (v - rs)) <$> speed_profile in
  let idx := np_where ((λ d, Qleb d v_tol) <$> speed_diff) in
  '(c0, c1, c2) ←
    (if (length idx =? 0)%nat then
       if (bp <? len_time)%Z then
         t ← getitem_int time_profile bp;
         Ok (None, None, Some (t - reserve_before_arrival))
       else Ok (None, None, None)
     else
       b ← getitem idx 0;
       d ← getitem speed_diff b;
       t ← getitem time_profile b;
       st ← getitem setting_time k;
       Ok (Some d, Some b, Some (t - st)));
  c3 ←
    (if (bp <? len_time)%Z then
       t ← getitem_int time_profile bp; Ok (Some t)
     else Ok None);
  ov ← getitem overlap k;
  let release_idx := (bp + py_round train_length + py_int ov)%Z in
  c4 ←
    (if (release_idx <? len_time)%Z then
       t ← getitem_int time_profile release_idx;
       rt ← getitem release_time k;
       Ok (Some (t + rt))
     else Ok None);
  Ok {| speed_diff_at_release := c0; matched_index := c1;
        booking_time := c2; arrival_time := c3; release_time_at := c4 |}.

End Scheduler.

(** [position_profile] is accepted and never read. *)
Definition calculate_block_occupancy
    (block_positions : list Z)
    (speed_profile position_profile time_profile release_speed : list Q)
    (train_length : Q) (overlap release_time setting_time : list Q)
    (reserve_before_arrival v_tol : Q) : result (list row) :=
  mapM (λ '(k, bp),
          block_row speed_profile time_profile release_speed train_length
                    overlap release_time setting_time
                    reserve_before_arrival v_tol k bp)
       (enumerate block_positions).

End Blocks.


(** ** [braking.py]: the closed-form helpers *)

Module BrakingFormulas.

Definition calculate_braking_force (mass deceleration : Q) : Q :=
  mass * deceleration.

Definition calculate_braking_distance (initial_speed deceleration : Q)
  : result Q :=
  if Qleb deceleration 0 then Raise ValueError
  else Ok (np_div (initial_speed ^ 2) (2 * deceleration)).

Definition calculate_stopping_time (initial_speed deceleration : Q)
  : result Q :=
  if Qleb deceleration 0 then Raise ValueError
  else Ok (np_div initial_speed deceleration).

End BrakingFormulas.

(** ** The rows of the block scheduler, described *)

Module BlockRows.

Import Blocks.

Section Rows.

Variables speed_profile time_profile : list Q.
Variables reserve_before_arrival v_tol : Q.



End Rows.

End BlockRows.

(** ** [simulator.py]: the block stage of the pipeline *)

Module Simulator.

(** [time_profile = np.arange(len(position_profile)) * dt]. *)
Definition time_profile (position_profile : list Q) (dt : Q) : list Q :=
  (λ i, inject_Z (Z.of_nat i) * dt) <$> seq 0 (length position_profile).


End Simulator.

(** * Properties *)

(** ** Facts about the primitives *)

Section PyFacts.

Lemma Qltb_true (x y : Q) : Qltb x y = true ↔ x < y.
Proof.
  unfold Qltb. rewrite negb_true_iff, <- not_true_iff_false, Qle_bool_iff.
  split; [apply Qnot_le_lt | apply Qlt_not_le].
Qed.

Lemma Qltb_false (x y : Q) : Qltb x y = false ↔ y <= x.
Proof.
  unfold Qltb. rewrite negb_false_iff. apply Qle_bool_iff.
Qed.

Lemma Qleb_true (x y : Q) : Qleb x y = true ↔ x <= y.
Proof. apply Qle_bool_iff. Qed.

Lemma Qleb_false (x y : Q) : Qleb x y = false ↔ y < x.
Proof.
  unfold Qleb. rewrite <- not_true_iff_false, Qle_bool_iff.
  split; [apply Qnot_le_lt | apply Qlt_not_le].
Qed.

Lemma py_max_lower (a b : Q) : a <= py_max a b.
Proof.
  unfold py_max. destruct (Qltb a b) eqn:E.
  - apply Qltb_true in E. lra.
  - lra.
Qed.

Lemma py_max_cases (a b : Q) :
  (py_max a b = b ∧ a < b) ∨ (py_max a b = a ∧ b <= a).
Proof.
  unfold py_max. destruct (Qltb a b) eqn:E.
  - left. split; [done | by apply Qltb_true].
  - right. split; [done | by apply Qltb_false].
Qed.

Lemma py_min_cases (a b : Q) :
  (py_min a b = b ∧ b < a) ∨ (py_min a b = a ∧ a <= b).
Proof.
  unfold py_min. destruct (Qltb b a) eqn:E.
  - left. split; [done | by apply Qltb_true].
  - right. split; [done | by apply Qltb_false].
Qed.

Lemma py_min_upper (a b : Q) : py_min a b <= b.
Proof. destruct (py_min_cases a b) as [[-> ?] | [-> ?]]; lra. Qed.

Lemma py_int_inject (z : Z) : py_int (inject_Z z) = z.
Proof. unfold py_int. simpl. apply Z.quot_1_r. Qed.

Lemma getitem_Some {A} (a : list A) i x : a !! i = Some x → getitem a i = Ok x.
Proof. unfold getitem. by intros ->. Qed.

Lemma getitem_None {A} (a : list A) i :
  (length a ≤ i)%nat → getitem a i = Raise IndexError.
Proof. unfold getitem. intros H. by rewrite (lookup_ge_None_2 _ _ H). Qed.

Lemma setitem_lt {A} (a : list A) i x :
  (i < length a)%nat → setitem a i x = Ok (<[i:=x]> a).
Proof. unfold setitem. intros H. by rewrite decide_True. Qed.

Lemma requested_steps_zero (distance : Q) (dt : Q) :
  dt == 0 → requested_steps distance dt = Raise ZeroDivisionError.
Proof.
  intros H. unfold requested_steps, py_floordiv.
  apply Qeq_bool_iff in H. by rewrite H.
Qed.

Lemma requested_steps_nonzero (distance dt : Q) :
  ¬ dt == 0 →
  requested_steps distance dt = Ok (Qfloor (distance / dt) + 1)%Z.
Proof.
  intros H. unfold requested_steps, py_floordiv.
  destruct (Qeq_bool dt 0) eqn:E.
  - apply Qeq_bool_iff in E. contradiction.
  - simpl. by rewrite py_int_inject.
Qed.

Lemma mapM_result_Forall {A B} (f : A → result B) (P : B → Prop) (l : list A) :
  (∀ x, x ∈ l → ∃ y, f x = Ok y ∧ P y) →
  ∃ out, mapM f l = Ok out ∧ Forall P out ∧ length out = length l.
Proof.
  induction l as [| x l IH]; intros H.
  - exists []. by repeat split.
  - destruct (H x) as (y & Hy & Py); [left |].
    destruct IH as (out & Hout & Pout & Hlen).
    { intros z Hz. apply H. by right. }
    exists (y :: out). simpl. rewrite Hy. simpl. rewrite Hout. simpl.
    repeat split; [by constructor | by rewrite Hlen].
Qed.

Lemma mapM_result_Forall2 {A B} (f : A → result B) (l : list A) :
  (∀ x, x ∈ l → ∃ y, f x = Ok y) →
  ∃ out, mapM f l = Ok out ∧ Forall2 (λ x y, f x = Ok y) l out.
Proof.
  induction l as [| x l IH]; intros H.
  - exists []. by split.
  - destruct (H x) as (y & Hy); [left |].
    destruct IH as (out & Hout & Hall).
    { intros z Hz. apply H. by right. }
    exists (y :: out). simpl. rewrite Hy. simpl. rewrite Hout. simpl.
    split; [done | by constructor].
Qed.

Lemma increasing_check_sound (pos : list Q) :
  increasing_check pos = true → strictly_increasing pos.
Proof.
  induction pos as [| a pos IH]; intros H i p q Hp Hq; [done |].
  destruct pos as [| b pos]; [by destruct i |].
  simpl in H. apply andb_true_iff in H as [Hab Hrest].
  destruct i as [| i].
  - simpl in Hp, Hq. injection Hp as <-. injection Hq as <-.
    by apply Qltb_true.
  - by apply (IH Hrest i).
Qed.

Lemma valid_profile_check_sound {V} (pos : list Q) (vals : list V) :
  valid_profile_check pos vals = true → valid_profile pos vals.
Proof.
  unfold valid_profile_check. intros H.
  apply andb_true_iff in H as [H1 H2]. split.
  - by apply increasing_check_sound.
  - by apply Nat.eqb_eq.
Qed.

End PyFacts.

(** ** The overlap search of the interval calculators *)

Section OverlapFacts.

Lemma np_where_from_filter (f : nat → bool) (mask : list bool) (i : nat) :
  (∀ k, (k < length mask)%nat → mask !! k = Some (f (i + k)%nat)) →
  np_where_from i mask = filter (λ j, f j = true) (seq i (length mask)).
Proof.
  revert i. induction mask as [| b m IH]; intros i H; [done |].
  cbn [np_where_from length seq].
  assert (Hb : b = f i).
  { specialize (H 0%nat ltac:(simpl; lia)). rewrite Nat.add_0_r in H.
    by injection H. }
  assert (Hm : np_where_from (S i) m
               = filter (λ j, f j = true) (seq (S i) (length m))).
  { apply IH. intros k Hk. specialize (H (S k) ltac:(simpl; lia)).
    simpl in H. rewrite H. f_equal. f_equal. lia. }
  rewrite Hm, Hb. destruct (f i) eqn:E.
  - by rewrite filter_cons_True.
  - rewrite filter_cons_False; [done | congruence].
Qed.

Lemma overlap_mask_length (pos : list Q) (lo hi : Q) :
  length (overlap_mask pos lo hi) = (length pos - 1)%nat.
Proof.
  unfold overlap_mask.
  rewrite length_zip_with, !length_fmap, length_tl.
  rewrite removelast_firstn_len, length_take. lia.
Qed.

Lemma overlap_mask_lookup (pos : list Q) (lo hi : Q) (k : nat) :
  (k < length pos - 1)%nat →
  overlap_mask pos lo hi !! k = Some (overlaps pos lo hi k).
Proof.
  intros Hk. unfold overlap_mask, overlaps.
  rewrite lookup_zip_with, !list_lookup_fmap, lookup_tail.
  rewrite removelast_firstn_len, lookup_take_lt by lia.
  destruct (lookup_lt_is_Some_2 pos k) as [p0 ->]; [lia |].
  destruct (lookup_lt_is_Some_2 pos (S k)) as [p1 ->]; [lia |].
  done.
Qed.

(** The indices found by the code are the overlapping intervals of the
    specification, in ascending order. *)
Lemma np_where_overlapping (pos : list Q) (lo hi : Q) :
  np_where (overlap_mask pos lo hi) = overlapping_intervals pos lo hi.
Proof.
  unfold np_where, overlapping_intervals.
  rewrite (np_where_from_filter (overlaps pos lo hi)).
  - by rewrite overlap_mask_length.
  - intros k Hk. rewrite overlap_mask_length in Hk.
    by apply overlap_mask_lookup.
Qed.

Lemma overlapping_elem (pos : list Q) (lo hi : Q) (j : nat) :
  j ∈ overlapping_intervals pos lo hi ↔
  ∃ p0 p1, pos !! j = Some p0 ∧ pos !! S j = Some p1 ∧ lo < p1 ∧ p0 <= hi.
Proof.
  unfold overlapping_intervals, overlaps.
  rewrite list_elem_of_filter, elem_of_seq. split.
  - intros [H _].
    destruct (pos !! j) as [p0 |]; [| done].
    destruct (pos !! S j) as [p1 |]; [| done].
    apply andb_true_iff in H as [H1 H2].
    apply Qltb_true in H1. apply Qleb_true in H2. by exists p0, p1.
  - intros (p0 & p1 & H0 & H1 & Hlo & Hhi). rewrite H0, H1. split.
    + apply andb_true_iff. split; [by apply Qltb_true | by apply Qleb_true].
    + apply lookup_lt_Some in H1. lia.
Qed.

Lemma strictly_increasing_lt (pos : list Q) (i j : nat) (p q : Q) :
  strictly_increasing pos → (i < j)%nat →
  pos !! i = Some p → pos !! j = Some q → p < q.
Proof.
  intros Hinc Hij Hi. revert q. induction Hij as [| j Hij IH]; intros q Hj.
  - by apply (Hinc i).
  - destruct (lookup_lt_is_Some_2 pos j) as [r Hr].
    { apply lookup_lt_Some in Hj. lia. }
    specialize (IH r Hr). specialize (Hinc j r q Hr Hj). lra.
Qed.

(** An ascending list of naturals without gaps is a [seq]. *)
Lemma sorted_convex_seq (l : list nat) :
  StronglySorted lt l →
  (∀ i j k, i ∈ l → k ∈ l → (i < j < k)%nat → j ∈ l) →
  l = seq (hd 0%nat l) (length l).
Proof.
  induction l as [| x l IH]; intros Hs Hc; [done |].
  apply StronglySorted_inv in Hs as [Hs Hx].
  simpl. f_equal. destruct l as [| y l']; [done |].
  assert (Hy : y = S x).
  { apply Forall_cons in Hx as [Hxy _].
    destruct (decide (y = S x)) as [| Hne]; [done |].
    assert (Hin : S x ∈ x :: y :: l').
    { apply (Hc x (S x) y); [left | right; left | lia]. }
    apply elem_of_cons in Hin as [| Hin]; [lia |].
    apply elem_of_cons in Hin as [| Hin]; [lia |].
    apply StronglySorted_inv in Hs as [_ Hy'].
    rewrite Forall_forall in Hy'. specialize (Hy' _ Hin). lia. }
  rewrite <- Hy. apply IH; [done |].
  intros i j k Hi Hk Hijk.
  assert (Hin : j ∈ x :: y :: l').
  { apply (Hc i j k); [by right | by right | done]. }
  apply elem_of_cons in Hin as [-> | Hin]; [| done].
  rewrite Forall_forall in Hx. specialize (Hx _ Hi). lia.
Qed.

Lemma filter_strongly_sorted {A} (R : A → A → Prop) (P : A → Prop)
    `{∀ x, Decision (P x)} (l : list A) :
  StronglySorted R l → StronglySorted R (filter P l).
Proof.
  induction 1 as [| x l Hs IH Hx]; [constructor |].
  assert (Hf : Forall (R x) (filter P l)).
  { apply Forall_forall. intros y Hy. apply list_elem_of_filter in Hy as [_ Hy].
    rewrite Forall_forall in Hx. by apply Hx. }
  destruct (decide (P x)).
  - rewrite filter_cons_True by done. by constructor.
  - by rewrite filter_cons_False.
Qed.

Lemma seq_strongly_sorted (s n : nat) : StronglySorted lt (seq s n).
Proof.
  revert s. induction n as [| n IH]; intros s; simpl; constructor.
  - apply IH.
  - apply Forall_forall. intros y Hy. apply elem_of_seq in Hy. lia.
Qed.

Lemma overlapping_sorted (pos : list Q) (lo hi : Q) :
  StronglySorted lt (overlapping_intervals pos lo hi).
Proof.
  unfold overlapping_intervals.
  apply filter_strongly_sorted, seq_strongly_sorted.
Qed.

(** On strictly increasing breakpoints the overlapping intervals are
    consecutive. *)
Lemma overlapping_contiguous (pos : list Q) (lo hi : Q) :
  strictly_increasing pos →
  let I := overlapping_intervals pos lo hi in
  I = seq (hd 0%nat I) (length I).
Proof.
  intros Hinc I. apply sorted_convex_seq; [apply overlapping_sorted |].
  intros i j k Hi Hk Hijk. apply overlapping_elem.
  apply overlapping_elem in Hi as (pi0 & pi1 & Hi0 & Hi1 & Hilo & _).
  apply overlapping_elem in Hk as (pk0 & pk1 & Hk0 & Hk1 & _ & Hkhi).
  destruct (lookup_lt_is_Some_2 pos j) as [pj0 Hj0].
  { apply lookup_lt_Some in Hk0. lia. }
  destruct (lookup_lt_is_Some_2 pos (S j)) as [pj1 Hj1].
  { apply lookup_lt_Some in Hk0. lia. }
  exists pj0, pj1. repeat split; [done | done | |].
  - assert (pi1 <= pj0).
    { destruct (decide (S i = j)) as [<- | Hne].
      - rewrite Hi1 in Hj0. injection Hj0 as <-. lra.
      - apply Qlt_le_weak.
        apply (strictly_increasing_lt pos (S i) j); [done | lia | done | done]. }
    specialize (Hinc j pj0 pj1 Hj0 Hj1). lra.
  - pose proof (strictly_increasing_lt pos j k pj0 pk0 Hinc
                  ltac:(lia) Hj0 Hk0). lra.
Qed.

End OverlapFacts.

(** ** Weighted sums over consecutive intervals *)

Section ClippedSum.

Variables (c p : nat → Q) (lo hi : Q).

Lemma getitem_nth {A} (l : list A) (i : nat) (d : A) :
  (i < length l)%nat → getitem l i = Ok (nth i l d).
Proof.
  intros H. apply getitem_Some.
  destruct (nth_lookup_or_length l i d); [done | lia].
Qed.

(** Scaling the coefficients scales the sum. *)
Lemma clipped_sum_scale (k : Q) (first : bool) (I : list nat) :
  clipped_sum (λ j, c j * k) p lo hi first I
  == clipped_sum c p lo hi first I * k.
Proof.
  revert first. induction I as [| j I IH]; intros first; simpl; [ring |].
  rewrite IH. ring.
Qed.

(** The sum lies between the extreme coefficients times the length
    covered, when every counted length is non-negative. *)
Lemma clipped_sum_bounds (bl bh : Q) (m j : nat) (first : bool) :
  (1 ≤ m)%nat →
  (∀ k, (j ≤ k < j + m)%nat → bl <= c k <= bh) →
  (∀ k, (j ≤ k)%nat → (S k < j + m)%nat → p k <= p (S k)) →
  (first = true → (2 ≤ m)%nat ∧ lo <= p (S j)) →
  p (j + m - 1)%nat <= hi →
  let start := if first then lo else p j in
  bl * (hi - start) <= clipped_sum c p lo hi first (seq j m)
  ∧ clipped_sum c p lo hi first (seq j m) <= bh * (hi - start).
Proof.
  intros Hm. revert j first.
  induction m as [| m IH]; [lia |]. intros j first Hc Hp Hf Hlast start.
  destruct m as [| m].
  - simpl. destruct first; [destruct Hf; [done | lia] |].
    replace (j + 1 - 1)%nat with j in Hlast by lia.
    specialize (Hc j ltac:(lia)). subst start. simpl. nra.
  - assert (Hstart : start <= p (S j)).
    { subst start. destruct first; [by apply Hf | apply Hp; lia]. }
    destruct (IH ltac:(lia) (S j) false) as [IHl IHh].
    + intros k Hk. apply Hc. lia.
    + intros k Hk1 Hk2. apply Hp; lia.
    + done.
    + by replace (S j + S m - 1)%nat with (j + S (S m) - 1)%nat by lia.
    + specialize (Hc j ltac:(lia)).
      change (seq j (S (S m))) with (j :: S j :: seq (S (S j)) m).
      change (seq (S j) (S m)) with (S j :: seq (S (S j)) m) in IHl, IHh.
      cbn [clipped_sum] in *. fold start. simpl in IHl, IHh. nra.
Qed.

End ClippedSum.

(** ** Geometry of a span over strictly increasing breakpoints *)

Section SpanGeometry.

Variables (pos : list Q) (lo hi : Q).

Let point (j : nat) := nth j pos 0.

Hypothesis Hinc : strictly_increasing pos.

Lemma point_lookup (j : nat) (q : Q) : pos !! j = Some q → point j = q.
Proof. apply nth_lookup_Some. Qed.

(** Geometry of a span overlapping at least two consecutive intervals. *)
Lemma several_geometry (j0 m : nat) :
  overlapping_intervals pos lo hi = seq j0 m → (2 ≤ m)%nat →
  (∀ k, (j0 ≤ k)%nat → (S k < j0 + m)%nat → point k <= point (S k))
  ∧ lo < point (S j0)
  ∧ point (j0 + m - 1)%nat <= hi
  ∧ (j0 + m ≤ length pos - 1)%nat
  ∧ lo < hi.
Proof.
  intros HI Hm.
  assert (Hin : ∀ k, (j0 ≤ k < j0 + m)%nat →
            ∃ p0 p1, pos !! k = Some p0 ∧ pos !! S k = Some p1
                     ∧ lo < p1 ∧ p0 <= hi).
  { intros k Hk. apply overlapping_elem. rewrite HI. apply elem_of_seq. lia. }
  assert (Hmono : ∀ k, (j0 ≤ k)%nat → (S k < j0 + m)%nat →
            point k < point (S k)).
  { intros k Hk1 Hk2. destruct (Hin k) as (p0 & p1 & H0 & H1 & _); [lia |].
    rewrite (point_lookup _ _ H0), (point_lookup _ _ H1).
    by apply (Hinc k). }
  destruct (Hin j0) as (a0 & a1 & Ha0 & Ha1 & Halo & _); [lia |].
  destruct (Hin (j0 + m - 1)%nat) as (b0 & b1 & Hb0 & Hb1 & _ & Hbhi); [lia |].
  assert (Hfirst : lo < point (S j0)) by by rewrite (point_lookup _ _ Ha1).
  assert (Hlast : point (j0 + m - 1)%nat <= hi)
    by by rewrite (point_lookup _ _ Hb0).
  repeat split.
  - intros k Hk1 Hk2. apply Qlt_le_weak. by apply Hmono.
  - done.
  - done.
  - apply lookup_lt_Some in Hb1. lia.
  - assert (point (S j0) <= point (j0 + m - 1)%nat); [| lra].
    destruct (decide (S j0 = j0 + m - 1)%nat) as [-> | Hne]; [lra |].
    apply Qlt_le_weak.
    apply (strictly_increasing_lt pos (S j0) (j0 + m - 1)%nat);
      [done | lia | |].
    + rewrite Ha1. f_equal. symmetry. by apply point_lookup.
    + rewrite Hb0. f_equal. symmetry. by apply point_lookup.
Qed.

End SpanGeometry.

(** ** [calculate_equivalent_slope] *)

Section SlopeFacts.

Import Slope.

Variables (lutning_pos lutning : list Q) (train_length xp : Q).

Let lo := xp - train_length.
Let value (j : nat) := nth j lutning 0.
Let point (j : nat) := nth j lutning_pos 0.

(** The accumulation loop computes the clipped sum of the specification. *)
Lemma slope_loop (n : nat) (I : list nat) (i : nat) (acc : Q) :
  Forall (λ j, (S j < length lutning_pos)%nat ∧ (j < length lutning)%nat) I →
  (i + length I = n)%nat →
  (i = 0%nat → (2 ≤ length I)%nat) →
  ∃ t, for_each (enumerate_from i I)
                (add_segment lutning_pos lutning lo xp n) acc = Ok t
       ∧ t == acc + clipped_sum value point lo xp (i =? 0)%nat I.
Proof.
  revert i acc. induction I as [| j I IH]; intros i acc HI Hn Hi.
  - exists acc. split; [done | simpl; ring].
  - apply Forall_cons in HI as [[Hj1 Hj2] HI].
    cbn [enumerate_from for_each add_segment clipped_sum].
    rewrite Nat.add_1_r.
    rewrite (getitem_nth lutning j 0 Hj2).
    rewrite (getitem_nth lutning_pos (S j) 0 Hj1).
    rewrite (getitem_nth lutning_pos j 0) by lia.
    fold (value j) (point j) (point (S j)).
    simpl in Hn.
    destruct (i =? 0)%nat eqn:E0.
    + apply Nat.eqb_eq in E0. specialize (Hi E0). simpl in Hi.
      destruct I as [| j' I']; [simpl in Hi; lia |].
      destruct (IH (S i) (acc + value j * (point (S j) - lo)) HI
                  ltac:(simpl in *; lia) ltac:(lia)) as (t & Ht & Heq).
      exists t. split; [exact Ht |].
      rewrite Heq. simpl. ring.
    + destruct (i =? n - 1)%nat eqn:E1.
      * apply Nat.eqb_eq in E1.
        destruct I as [| j' I']; [| simpl in Hn; lia].
        exists (acc + value j * (xp - point j)). split; [done |].
        simpl. ring.
      * apply Nat.eqb_neq in E1.
        destruct I as [| j' I']; [simpl in Hn; lia |].
        destruct (IH (S i) (acc + value j * (point (S j) - point j)) HI
                    ltac:(simpl in *; lia) ltac:(lia)) as (t & Ht & Heq).
        exists t. split; [exact Ht |].
        rewrite Heq. simpl. ring.
Qed.

Hypothesis Hlen : length lutning = (length lutning_pos - 1)%nat.

Lemma overlapping_in_range :
  Forall (λ j, (S j < length lutning_pos)%nat ∧ (j < length lutning)%nat)
         (overlapping_intervals lutning_pos lo xp).
Proof.
  apply Forall_forall. intros j Hj.
  apply overlapping_elem in Hj as (p0 & p1 & _ & H1 & _).
  apply lookup_lt_Some in H1. lia.
Qed.

(** The three branches of the code, in terms of the overlapping
    intervals of the specification. *)
Lemma slope_at_none :
  overlapping_intervals lutning_pos lo xp = [] →
  slope_at lutning_pos lutning train_length xp = Ok None.
Proof.
  intros H. unfold slope_at. fold lo. rewrite np_where_overlapping, H. done.
Qed.

Lemma slope_at_single (j : nat) :
  overlapping_intervals lutning_pos lo xp = [j] →
  slope_at lutning_pos lutning train_length xp = Ok (Some (value j)).
Proof.
  intros H. pose proof overlapping_in_range as Hr.
  unfold slope_at. fold lo. rewrite np_where_overlapping, H in *.
  apply Forall_cons in Hr as [[_ Hj] _]. simpl.
  by rewrite (getitem_nth lutning j 0 Hj).
Qed.

Lemma slope_at_several :
  (1 < length (overlapping_intervals lutning_pos lo xp))%nat →
  ∃ x, slope_at lutning_pos lutning train_length xp = Ok (Some x)
       ∧ x == weighted_average lutning_pos lutning train_length xp.
Proof.
  intros H. unfold slope_at, weighted_average. fold lo.
  rewrite np_where_overlapping.
  set (I := overlapping_intervals lutning_pos lo xp) in *.
  destruct (slope_loop (length I) I 0 0 overlapping_in_range
              ltac:(lia) ltac:(lia)) as (t & Ht & Heq).
  destruct (length I =? 1)%nat eqn:E1; [apply Nat.eqb_eq in E1; lia |].
  destruct (1 <? length I)%nat eqn:E2; [| apply Nat.ltb_ge in E2; lia].
  unfold enumerate. rewrite Ht. simpl.
  exists (np_div t (xp - lo)). split; [done |].
  unfold np_div. rewrite Heq, Qplus_0_l. reflexivity.
Qed.

Hypothesis Hinc : strictly_increasing lutning_pos.


End SlopeFacts.

(** ** [calculate_curve_resistance] *)

Section CurveFacts.

Import Curve.

Variables (curve_pos : list Q) (curve_radius : list radius).
Variables (train_length train_mass xp : Q).

Let lo := xp - train_length.
Let force (j : nat) := interval_force curve_radius train_mass j.
Let point (j : nat) := nth j curve_pos 0.

(** The accumulation loop: every interval force is divided by the
    occupied length before it is weighted. *)
Lemma curve_loop (n : nat) (I : list nat) (i : nat) (acc : Q) :
  Forall (λ j, (S j < length curve_pos)%nat ∧ (j < length curve_radius)%nat) I →
  (i + length I = n)%nat →
  (i = 0%nat → (2 ≤ length I)%nat) →
  ∃ t, for_each (enumerate_from i I)
         (add_segment curve_pos curve_radius train_mass lo xp n) acc = Ok t
       ∧ t == (if (i =? 0)%nat then 0 else acc)
              + clipped_sum (λ j, force j * / (xp - lo)) point lo xp
                            (i =? 0)%nat I.
Proof.
  revert i acc. induction I as [| j I IH]; intros i acc HI Hn Hi.
  - destruct (Nat.eq_dec i 0%nat) as [E | E];
      [specialize (Hi E); simpl in Hi; lia |].
    exists acc. split; [done |].
    apply Nat.eqb_neq in E. rewrite E. simpl. ring.
  - apply Forall_cons in HI as [[Hj1 Hj2] HI].
    cbn [enumerate_from for_each add_segment clipped_sum].
    rewrite Nat.add_1_r.
    rewrite (getitem_nth curve_radius j Straight Hj2).
    rewrite (getitem_nth curve_pos (S j) 0 Hj1).
    rewrite (getitem_nth curve_pos j 0) by lia.
    fold (point j) (point (S j)).
    change (unit_resistance (nth j curve_radius Straight) * train_mass)
      with (force j).
    simpl in Hn. unfold np_div, Qdiv.
    destruct (i =? 0)%nat eqn:E0.
    + apply Nat.eqb_eq in E0. specialize (Hi E0). simpl in Hi.
      destruct I as [| j' I']; [simpl in Hi; lia |].
      destruct (IH (S i) (force j * / (xp - lo) * (point (S j) - lo)) HI
                  ltac:(simpl in *; lia) ltac:(lia)) as (t & Ht & Heq).
      exists t. split; [exact Ht |].
      rewrite Heq. simpl. ring.
    + destruct (i =? n - 1)%nat eqn:E1.
      * apply Nat.eqb_eq in E1.
        destruct I as [| j' I']; [| simpl in Hn; lia].
        exists (acc + force j * / (xp - lo) * (xp - point j)).
        split; [done |]. simpl. ring.
      * apply Nat.eqb_neq in E1.
        destruct I as [| j' I']; [simpl in Hn; lia |].
        destruct (IH (S i)
                    (acc + force j * / (xp - lo) * (point (S j) - point j)) HI
                    ltac:(simpl in *; lia) ltac:(lia)) as (t & Ht & Heq).
        exists t. split; [exact Ht |].
        rewrite Heq. simpl. ring.
Qed.

Hypothesis Hlen : length curve_radius = (length curve_pos - 1)%nat.

Lemma curve_overlapping_in_range :
  Forall (λ j, (S j < length curve_pos)%nat ∧ (j < length curve_radius)%nat)
         (overlapping_intervals curve_pos lo xp).
Proof.
  apply Forall_forall. intros j Hj.
  apply overlapping_elem in Hj as (p0 & p1 & _ & H1 & _).
  apply lookup_lt_Some in H1. lia.
Qed.

Lemma resistance_at_none :
  overlapping_intervals curve_pos lo xp = [] →
  resistance_at curve_pos curve_radius train_length train_mass xp = Ok None.
Proof.
  intros H. unfold resistance_at. fold lo.
  rewrite np_where_overlapping, H. done.
Qed.

Lemma resistance_at_single (j : nat) :
  overlapping_intervals curve_pos lo xp = [j] →
  resistance_at curve_pos curve_radius train_length train_mass xp
  = Ok (Some (force j)).
Proof.
  intros H. pose proof curve_overlapping_in_range as Hr.
  unfold resistance_at. fold lo. rewrite np_where_overlapping, H in *.
  apply Forall_cons in Hr as [[_ Hj] _]. simpl.
  by rewrite (getitem_nth curve_radius j Straight Hj).
Qed.

Lemma resistance_at_several :
  (1 < length (overlapping_intervals curve_pos lo xp))%nat →
  ∃ x, resistance_at curve_pos curve_radius train_length train_mass xp
       = Ok (Some x)
       ∧ x == force_average curve_pos curve_radius train_length train_mass xp.
Proof.
  intros H. unfold resistance_at, force_average, force_sum_unnormalized.
  fold lo. rewrite np_where_overlapping.
  set (I := overlapping_intervals curve_pos lo xp) in *.
  destruct (curve_loop (length I) I 0 0 curve_overlapping_in_range
              ltac:(lia) ltac:(lia)) as (t & Ht & Heq).
  destruct (length I =? 1)%nat eqn:E1; [apply Nat.eqb_eq in E1; lia |].
  destruct (1 <? length I)%nat eqn:E2; [| apply Nat.ltb_ge in E2; lia].
  unfold enumerate. rewrite Ht. simpl.
  exists t. split; [done |].
  rewrite Heq. change (0 =? 0)%nat with true. cbv iota.
  rewrite (clipped_sum_scale force point lo xp (/ (xp - lo)) true I).
  rewrite Qplus_0_l. reflexivity.
Qed.

End CurveFacts.

Section CurveBounds.

Import Curve.

Variables (curve_pos : list Q) (curve_radius : list radius).
Variables (train_length train_mass xp : Q).

Hypothesis Hvalid : valid_profile curve_pos curve_radius.

(** Every produced value is [nan] or lies between the extreme interval
    forces. *)
Lemma resistance_at_bounded (bl bh : Q) :
  Forall (λ r, bl <= unit_resistance r * train_mass <= bh) curve_radius →
  ∃ o, resistance_at curve_pos curve_radius train_length train_mass xp = Ok o
       ∧ match o with None => True | Some x => bl <= x <= bh end.
Proof.
  intros Hb. destruct Hvalid as [Hinc Hlen].
  set (lo := xp - train_length).
  set (force := interval_force curve_radius train_mass).
  set (point := λ j, nth j curve_pos 0).
  assert (Hval : ∀ j, (j < length curve_radius)%nat → bl <= force j <= bh).
  { intros j Hj. rewrite Forall_forall in Hb.
    apply (Hb (nth j curve_radius Straight)). by apply nth_elem_of. }
  pose proof (overlapping_contiguous curve_pos lo xp Hinc) as Hseq.
  simpl in Hseq.
  pose proof (curve_overlapping_in_range curve_pos curve_radius
                train_length xp Hlen) as Hr.
  simpl in Hr. fold lo in Hr.
  set (I := overlapping_intervals curve_pos lo xp) in *.
  destruct (decide (length I = 0)%nat) as [E0 | N0].
  { exists None. split; [| done]. apply resistance_at_none.
    by apply length_zero_iff_nil. }
  destruct (decide (length I = 1)%nat) as [E1 | N1].
  { rewrite E1 in Hseq. simpl in Hseq. exists (Some (force (hd 0%nat I))).
    split; [by apply resistance_at_single |].
    apply Hval. rewrite Hseq in Hr. by apply Forall_cons in Hr as [[_ ?] _]. }
  destruct (resistance_at_several curve_pos curve_radius train_length
              train_mass xp Hlen) as (x & Hx & Heq); [fold lo I; lia |].
  exists (Some x). split; [done |]. rewrite Heq.
  unfold force_average, force_sum_unnormalized. fold lo I force point.
  destruct (several_geometry curve_pos lo xp Hinc
              (hd 0%nat I) (length I) Hseq ltac:(lia))
    as (Hmono & Hfirst & Hlast & Hrange & Hspan).
  cbv beta in Hmono, Hfirst, Hlast.
  destruct (clipped_sum_bounds force point lo xp bl bh (length I)
              (hd 0%nat I) true) as [Hl Hh].
  - lia.
  - intros k Hk. apply Hval. lia.
  - exact Hmono.
  - intros _. split; [lia | unfold point; lra].
  - exact Hlast.
  - rewrite <- Hseq in Hl, Hh. simpl in Hl, Hh. split.
    + apply Qle_shift_div_l; [lra | done].
    + apply Qle_shift_div_r; [lra | done].
Qed.

End CurveBounds.

(** ** The interval calculators on whole sample arrays *)

Section IntervalCalculators.

Import Slope Curve.

Lemma slope_at_total (pos vals : list Q) (L xp : Q) :
  length vals = (length pos - 1)%nat →
  ∃ o, slope_at pos vals L xp = Ok o.
Proof.
  intros Hlen.
  destruct (overlapping_intervals pos (xp - L) xp) as [| j [| j' I]] eqn:E.
  - exists None. by apply slope_at_none.
  - eexists. by apply slope_at_single.
  - destruct (slope_at_several pos vals L xp Hlen) as (x & Hx & _).
    + rewrite E. simpl. lia.
    + by exists (Some x).
Qed.

Lemma resistance_at_total (pos : list Q) (radii : list radius) (L m xp : Q) :
  length radii = (length pos - 1)%nat →
  ∃ o, resistance_at pos radii L m xp = Ok o.
Proof.
  intros Hlen.
  destruct (overlapping_intervals pos (xp - L) xp) as [| j [| j' I]] eqn:E.
  - exists None. by apply resistance_at_none.
  - eexists. by apply resistance_at_single.
  - destruct (resistance_at_several pos radii L m xp Hlen) as (x & Hx & _).
    + rewrite E. simpl. lia.
    + by exists (Some x).
Qed.

(** The output array holds, sample by sample, the value of the loop
    iteration. *)
Lemma calculate_equivalent_slope_samples (pos vals x_pos : list Q) (L : Q) :
  length vals = (length pos - 1)%nat →
  ∃ out, calculate_equivalent_slope pos vals x_pos L = Ok out
    ∧ length out = length x_pos
    ∧ ∀ k xp, x_pos !! k = Some xp →
        ∃ o, out !! k = Some o ∧ slope_at pos vals L xp = Ok o.
Proof.
  intros Hlen. unfold calculate_equivalent_slope.
  destruct (mapM_result_Forall2 (slope_at pos vals L) x_pos)
    as (out & Hout & Hall).
  { intros x _. by apply slope_at_total. }
  exists out. split; [done |]. split.
  - symmetry. by eapply Forall2_length.
  - intros k xp Hk.
    destruct (Forall2_lookup_l _ _ _ _ _ Hall Hk) as (o & Ho & Hat).
    by exists o.
Qed.

Lemma calculate_curve_resistance_samples (pos : list Q) (radii : list radius)
    (x_pos : list Q) (L m : Q) :
  length radii = (length pos - 1)%nat →
  ∃ out, calculate_curve_resistance pos radii x_pos L m = Ok out
    ∧ length out = length x_pos
    ∧ ∀ k xp, x_pos !! k = Some xp →
        ∃ o, out !! k = Some o ∧ resistance_at pos radii L m xp = Ok o.
Proof.
  intros Hlen. unfold calculate_curve_resistance.
  destruct (mapM_result_Forall2 (resistance_at pos radii L m) x_pos)
    as (out & Hout & Hall).
  { intros x _. by apply resistance_at_total. }
  exists out. split; [done |]. split.
  - symmetry. by eapply Forall2_length.
  - intros k xp Hk.
    destruct (Forall2_lookup_l _ _ _ _ _ Hall Hk) as (o & Ho & Hat).
    by exists o.
Qed.

End IntervalCalculators.

(** ** Statements about the interval calculators *)

Section IntervalStatements.

Import Slope Curve.

(** C6. For a valid slope profile and every sample position [xp] with
    occupied span [[xp - train_length, xp]]: if exactly one interval [j]
    satisfies the overlap condition, the output is that interval's value;
    if several do, it is the sum of the interval values weighted by the
    clipped lengths (first clipped at the start of the span, last at its
    end, the others in full) divided by the occupied length; if none does,
    it is NaN. *)
Theorem C6_equivalent_slope_cases (pos vals x_pos : list Q) (L : Q) :
  valid_profile pos vals →
  ∃ out, calculate_equivalent_slope pos vals x_pos L = Ok out
    ∧ length out = length x_pos
    ∧ ∀ k xp, x_pos !! k = Some xp →
        let I := overlapping_intervals pos (xp - L) xp in
        (∀ j, I = [j] →
           ∃ v, vals !! j = Some v ∧ out !! k = Some (Some v))
        ∧ ((1 < length I)%nat →
           ∃ x, out !! k = Some (Some x)
                ∧ x == weighted_average pos vals L xp)
        ∧ (I = [] → out !! k = Some None).
Proof.
  intros [_ Hlen].
  destruct (calculate_equivalent_slope_samples pos vals x_pos L Hlen)
    as (out & Hout & Hl & Hs).
  exists out. split; [done |]. split; [done |].
  intros k xp Hk I. destruct (Hs k xp Hk) as (o & Ho & Hat).
  repeat split.
  - intros j HI. exists (nth j vals 0).
    rewrite (slope_at_single pos vals L xp Hlen j HI) in Hat.
    injection Hat as <-. split; [| done].
    pose proof (overlapping_in_range pos vals L xp Hlen) as Hr.
    cbv zeta in Hr. fold I in Hr. rewrite HI in Hr.
    apply Forall_cons in Hr as [[_ Hj] _].
    destruct (nth_lookup_or_length vals j 0); [done | lia].
  - intros HI.
    destruct (slope_at_several pos vals L xp Hlen HI) as (x & Hx & Heq).
    rewrite Hx in Hat. injection Hat as <-. by exists x.
  - intros HI. rewrite (slope_at_none pos vals L xp HI) in Hat.
    by injection Hat as <-.
Qed.

Lemma C6_witness :
  ∃ out,
    calculate_equivalent_slope [0; 500; 1000] [1 # 100; 2 # 100]
                               [0; 250; 500; 550; 1200] 100 = Ok out
    ∧ length out = 5%nat.
Proof.
  destruct (C6_equivalent_slope_cases [0; 500; 1000] [1 # 100; 2 # 100]
              [0; 250; 500; 550; 1200] 100) as (out & Hout & Hlen & _).
  - apply valid_profile_check_sound. reflexivity.
  - exists out. split; [exact Hout | exact Hlen].
Defined.



(** C1 (as amended). For a valid curve profile and every sample position
    whose occupied span overlaps more than one radius interval, the output
    is the sum of the interval forces [unit_resistance(r) * mass_kg]
    weighted by the clipped lengths and divided by the occupied length
    [xp - (xp - train_length)]: the same normalisation as in the
    equivalent-slope calculator. *)
Theorem C1_curve_resistance_normalized (pos : list Q) (radii : list radius)
    (x_pos : list Q) (L m : Q) :
  valid_profile pos radii →
  Forall radius_defined radii →
  ∃ out, calculate_curve_resistance pos radii x_pos L m = Ok out
    ∧ length out = length x_pos
    ∧ ∀ k xp, x_pos !! k = Some xp →
        (1 < length (overlapping_intervals pos (xp - L) xp))%nat →
        ∃ x, out !! k = Some (Some x)
             ∧ x == force_sum_unnormalized pos radii L m xp
                    / (xp - (xp - L)).
Proof.
  intros [_ Hlen] _.
  destruct (calculate_curve_resistance_samples pos radii x_pos L m Hlen)
    as (out & Hout & Hl & Hs).
  exists out. split; [done |]. split; [done |].
  intros k xp Hk HI. destruct (Hs k xp Hk) as (o & Ho & Hat).
  destruct (resistance_at_several pos radii L m xp Hlen HI) as (x & Hx & Heq).
  rewrite Hx in Hat. injection Hat as <-. by exists x.
Qed.

Lemma C1_witness :
  ∃ x, calculate_curve_resistance [0; 500; 1000] [Finite 500; Finite 200]
                                  [550] 100 50000 = Ok [Some x]
       ∧ x == force_sum_unnormalized [0; 500; 1000] [Finite 500; Finite 200]
                                     100 50000 550 / 100.
Proof.
  destruct (C1_curve_resistance_normalized [0; 500; 1000]
              [Finite 500; Finite 200] [550] 100 50000)
    as (out & Hout & Hlen & Hs).
  - apply valid_profile_check_sound. reflexivity.
  - repeat constructor; simpl; discriminate.
  - destruct (Hs 0%nat 550 eq_refl) as (x & Hx & Heq).
    + vm_compute. lia.
    + exists x. split; [| exact Heq].
      destruct out as [| o [| o' out]]; try discriminate Hlen.
      simpl in Hx. injection Hx as ->. exact Hout.
Defined.

(** C1 as stated fails: at [xp = 550] a 100 m train on the profile of the
    test suite overlaps both intervals, and the output (about 1076 N) is
    not the un-normalised sum (about 107599 N m). *)
Lemma C1_counterexample :
  (1 < length (overlapping_intervals [0; 500; 1000]%Q (550 - 100)%Q 550%Q))%nat
  ∧ ∃ x, calculate_curve_resistance [0; 500; 1000] [Finite 500; Finite 200]
                                    [550] 100 50000 = Ok [Some x]
         ∧ ¬ x == force_sum_unnormalized [0; 500; 1000]
                    [Finite 500; Finite 200] 100 50000 550.
Proof.
  split; [vm_compute; lia |].
  eexists. split; [vm_compute; reflexivity |].
  vm_compute. discriminate.
Qed.

End IntervalStatements.

(** ** Arrays filled from the left *)

Section PartialArrays.

Variables (n : nat) (f : nat → Q).

Lemma filled_length (i : nat) : (i ≤ n)%nat → length (filled n f i) = n.
Proof.
  intros H. unfold filled.
  rewrite length_app, length_fmap, length_seq, length_replicate. lia.
Qed.

Lemma filled_lookup (i j : nat) :
  (j < i)%nat → filled n f i !! j = Some (f j).
Proof.
  intros H. unfold filled.
  rewrite lookup_app_l by (rewrite length_fmap, length_seq; lia).
  rewrite list_lookup_fmap, lookup_seq_lt by lia. done.
Qed.

Lemma filled_getitem (i j : nat) :
  (j < i)%nat → getitem (filled n f i) j = Ok (f j).
Proof. intros H. by apply getitem_Some, filled_lookup. Qed.

Lemma filled_setitem (i : nat) (x : Q) :
  (i < n)%nat → x = f i →
  setitem (filled n f i) i x = Ok (filled n f (S i)).
Proof.
  intros H ->. rewrite setitem_lt by (rewrite filled_length; lia).
  f_equal. unfold filled.
  rewrite insert_app_r_alt by (rewrite length_fmap, length_seq; lia).
  rewrite length_fmap, length_seq, Nat.sub_diag.
  replace (n - i)%nat with (S (n - S i)) by lia.
  rewrite seq_S, fmap_app, <- app_assoc. done.
Qed.

Lemma filled_slice (i : nat) :
  slice_to (filled n f (S i)) (i + 1) = f <$> seq 0 (S i).
Proof.
  unfold slice_to, filled.
  replace (i + 1)%nat with (length (f <$> seq 0 (S i)))
    by (rewrite length_fmap, length_seq; lia).
  apply take_app_length.
Qed.

Lemma filled_full : (1 ≤ n)%nat → filled n f n = f <$> seq 0 (S (n - 1)).
Proof.
  intros H. unfold filled. rewrite Nat.sub_diag, app_nil_r.
  by replace (S (n - 1)) with n by lia.
Qed.

Lemma filled_start (x : Q) :
  (1 ≤ n)%nat → f 0%nat = x →
  setitem (replicate n 0) 0 x = Ok (filled n f 1).
Proof.
  intros H <-. rewrite setitem_lt by (rewrite length_replicate; lia).
  f_equal. unfold filled. destruct n as [| m]; [lia |].
  simpl. by rewrite Nat.sub_0_r.
Qed.

End PartialArrays.

(** The index at which a loop over [seq i k] stops. *)
Lemma find_seq_skip (P : nat → bool) (i k : nat) :
  P i = false → find P (seq i (S k)) = find P (seq (S i) k).
Proof. intros H. simpl. by rewrite H. Qed.

Lemma find_seq_here (P : nat → bool) (i k : nat) :
  P i = true → find P (seq i (S k)) = Some i.
Proof. intros H. simpl. by rewrite H. Qed.

Lemma find_seq_range (P : nat → bool) (i k j : nat) :
  find P (seq i k) = Some j → (i ≤ j < i + k)%nat ∧ P j = true.
Proof.
  intros H. apply find_some in H as [Hin HP].
  apply in_seq in Hin. split; [lia | done].
Qed.

Lemma find_seq_none (P : nat → bool) (i k j : nat) :
  find P (seq i k) = None → (i ≤ j < i + k)%nat → P j = false.
Proof.
  intros H Hj. apply (find_none P _ H). apply in_seq. lia.
Qed.

Lemma find_seq_first (P : nat → bool) (i k j j' : nat) :
  find P (seq i k) = Some j → (i ≤ j' < j)%nat → P j' = false.
Proof.
  revert i. induction k as [| k IH]; intros i H Hj; [done |].
  simpl in H. destruct (P i) eqn:E.
  - injection H as <-. lia.
  - destruct (decide (j' = i)) as [-> | Hne]; [done |].
    apply (IH (S i)); [done | lia].
Qed.

(** ** [calculate_acceleration_profile] *)

Section AccelFacts.

Import Config Accel.

Variable train_config : TrainConfig.
Variables slope_percent distance_m v_max dt : Q.
Variables A B C adhesion_coef tunnel_factor curve_resistance max_acc : Q.

Abbreviation step := (Accel.step train_config slope_percent distance_m v_max dt
                    A B C adhesion_coef tunnel_factor curve_resistance max_acc).
Abbreviation state_at := (Accel.state_at train_config slope_percent v_max dt
                        A B C adhesion_coef tunnel_factor curve_resistance
                        max_acc).
Abbreviation s_at := (Accel.s_at train_config slope_percent v_max dt
                    A B C adhesion_coef tunnel_factor curve_resistance max_acc).
Abbreviation v_at := (Accel.v_at train_config slope_percent v_max dt
                    A B C adhesion_coef tunnel_factor curve_resistance max_acc).
Abbreviation a_at := (Accel.a_at train_config slope_percent v_max dt
                    A B C adhesion_coef tunnel_factor curve_resistance max_acc).
Abbreviation F_at := (Accel.F_at train_config slope_percent v_max dt
                    A B C adhesion_coef tunnel_factor curve_resistance max_acc).
Abbreviation stops := (Accel.stops train_config slope_percent distance_m v_max dt
                     A B C adhesion_coef tunnel_factor curve_resistance
                     max_acc).
Abbreviation stop_index := (Accel.stop_index train_config slope_percent distance_m
                          v_max dt A B C adhesion_coef tunnel_factor
                          curve_resistance max_acc).
Abbreviation profile_upto := (Accel.profile_upto train_config slope_percent v_max
                            dt A B C adhesion_coef tunnel_factor
                            curve_resistance max_acc).
Abbreviation calculate := (calculate_acceleration_profile train_config
                         slope_percent distance_m v_max dt A B C adhesion_coef
                         tunnel_factor curve_resistance max_acc).

(** The arrays at the start of iteration [i]. *)
Let arrays (n i : nat) : profile :=
  {| distance := filled n s_at i; speed := filled n v_at i;
     acceleration := filled n a_at i; tractive_effort := filled n F_at i |}.

Lemma accel_step_spec (n i : nat) :
  (1 ≤ i < n)%nat →
  step (arrays n i) i
  = Ok (if stops i then Break (profile_upto i) else Continue (arrays n (S i))).
Proof.
  intros Hi. destruct i as [| j]; [lia |].
  unfold Accel.step, arrays.
  replace (S j - 1)%nat with j by lia.
  rewrite (filled_getitem n v_at (S j) j) by lia. cbn [mbind result_bind].
  assert (HF : ∀ x, x = F_at (S j) →
            setitem (filled n F_at (S j)) (S j) x
            = Ok (filled n F_at (S (S j)))).
  { intros x. apply filled_setitem. lia. }
  assert (Ha : ∀ x, x = a_at (S j) →
            setitem (filled n a_at (S j)) (S j) x
            = Ok (filled n a_at (S (S j)))).
  { intros x. apply filled_setitem. lia. }
  assert (Hv : ∀ x, x = v_at (S j) →
            setitem (filled n v_at (S j)) (S j) x
            = Ok (filled n v_at (S (S j)))).
  { intros x. apply filled_setitem. lia. }
  assert (Hs : ∀ x, x = s_at (S j) →
            setitem (filled n s_at (S j)) (S j) x
            = Ok (filled n s_at (S (S j)))).
  { intros x. apply filled_setitem. lia. }
  assert (Hsp : getitem (filled n s_at (S j)) j = Ok (s_at j))
    by (apply filled_getitem; lia).
  unfold Accel.stops.
  unfold Accel.F_at, Accel.a_at, Accel.v_at, Accel.s_at in *.
  cbn [Accel.state_at] in *.
  destruct (state_at j) as [[[s v] a] F] eqn:E.
  cbn [Accel.next_state fst snd] in *.
  rewrite HF by reflexivity. cbn [mbind result_bind].
  rewrite Ha by reflexivity. cbn [mbind result_bind].
  rewrite Hv by reflexivity. cbn [mbind result_bind].
  rewrite Hsp. cbn [mbind result_bind].
  rewrite Hs by reflexivity. cbn [mbind result_bind].
  match goal with |- (if ?b then _ else _) = _ => destruct b end.
  - unfold Accel.profile_upto. rewrite !filled_slice. done.
  - done.
Qed.

Lemma accel_loop_spec (n k i : nat) :
  (1 ≤ i)%nat → (i + k = n)%nat →
  for_each_break (seq i k) step (arrays n i)
  = Ok (profile_upto (default (n - 1)%nat (find stops (seq i k)))).
Proof.
  revert i. induction k as [| k IH]; intros i Hi Hn.
  - simpl. rewrite Nat.add_0_r in Hn. subst i. unfold arrays.
    rewrite !filled_full by lia. done.
  - cbn [seq for_each_break]. rewrite accel_step_spec by lia.
    cbn [mbind result_bind]. destruct (stops i) eqn:E.
    + change (i :: seq (S i) k) with (seq i (S k)).
      by rewrite (find_seq_here _ _ _ E).
    + change (i :: seq (S i) k) with (seq i (S k)).
      rewrite (find_seq_skip _ _ _ E). apply IH; lia.
Qed.

(** The run as a whole: what is returned for each outcome of the
    step-count computation. *)
Lemma accel_run_ok (nz : Z) :
  requested_steps distance_m dt = Ok nz → (1 ≤ nz)%Z →
  calculate = Ok (profile_upto (stop_index (Z.to_nat nz))).
Proof.
  intros Hreq Hnz. unfold calculate_acceleration_profile.
  rewrite Hreq. cbn [mbind result_bind]. unfold np_zeros.
  destruct (nz <? 0)%Z eqn:E; [apply Z.ltb_lt in E; lia |].
  cbn [mbind result_bind].
  set (n := Z.to_nat nz). assert (Hn : (1 ≤ n)%nat) by lia.
  assert (Hz : ∀ f : nat → Q, f 0%nat = 0 → filled n f 1 = replicate n 0).
  { intros f Hf. unfold filled. destruct n as [| m]; [lia |].
    simpl. by rewrite Hf, Nat.sub_0_r. }
  assert (Hset : setitem (replicate n 0) 0 0 = Ok (replicate n 0)).
  { rewrite (filled_start n (λ _, 0) 0 Hn eq_refl). f_equal. by apply Hz. }
  rewrite Hset. cbn [mbind result_bind].
  unfold py_range. fold n.
  replace {| distance := replicate n 0; speed := replicate n 0;
             acceleration := replicate n 0;
             tractive_effort := replicate n 0 |} with (arrays n 1)
    by (unfold arrays; by rewrite !Hz).
  rewrite (accel_loop_spec n (n - 1) 1) by lia. done.
Qed.

Lemma accel_run_raises (e : exn) :
  requested_steps distance_m dt = Raise e → calculate = Raise e.
Proof.
  intros H. unfold calculate_acceleration_profile. by rewrite H.
Qed.

Lemma accel_run_negative (nz : Z) :
  requested_steps distance_m dt = Ok nz → (nz < 0)%Z →
  calculate = Raise ValueError.
Proof.
  intros H Hnz. unfold calculate_acceleration_profile. rewrite H.
  cbn [mbind result_bind]. unfold np_zeros.
  apply Z.ltb_lt in Hnz. by rewrite Hnz.
Qed.

Lemma accel_run_empty :
  requested_steps distance_m dt = Ok 0%Z → calculate = Raise IndexError.
Proof.
  intros H. unfold calculate_acceleration_profile. by rewrite H.
Qed.

(** Consequences of the recurrence. *)
Lemma accel_v_at_range (i : nat) : 0 <= v_max → 0 <= v_at i <= v_max.
Proof.
  intros Hv. destruct i as [| j].
  - unfold Accel.v_at. simpl. lra.
  - unfold Accel.v_at. cbn [Accel.state_at].
    destruct (state_at j) as [[[s v] a] F]. cbn [Accel.next_state fst snd].
    split; [apply py_max_lower |].
    match goal with |- py_max 0 (py_min ?x v_max) <= _ =>
      destruct (py_max_cases 0 (py_min x v_max)) as [[-> _] | [-> _]];
      [apply py_min_upper | done]
    end.
Qed.

Lemma accel_s_at_step (i : nat) : s_at (S i) = s_at i + v_at (S i) * dt.
Proof.
  unfold Accel.s_at, Accel.v_at. cbn [Accel.state_at].
  by destruct (state_at i) as [[[s v] a] F].
Qed.

Lemma accel_stop_index_range (n : nat) :
  (1 ≤ n)%nat → (stop_index n < n)%nat.
Proof.
  intros Hn. unfold Accel.stop_index.
  destruct (find stops (seq 1 (n - 1))) as [j |] eqn:E; simpl; [| lia].
  apply find_seq_range in E. lia.
Qed.

Lemma accel_run_inv (p : profile) :
  calculate = Ok p →
  ∃ nz, requested_steps distance_m dt = Ok nz ∧ (1 ≤ nz)%Z
        ∧ p = profile_upto (stop_index (Z.to_nat nz)).
Proof.
  intros H. destruct (requested_steps distance_m dt) as [nz | e] eqn:E.
  - destruct (Z.lt_trichotomy nz 0) as [Hneg | [-> | Hpos]].
    + rewrite (accel_run_negative nz E Hneg) in H. discriminate.
    + rewrite (accel_run_empty E) in H. discriminate.
    + exists nz. rewrite (accel_run_ok nz E ltac:(lia)) in H.
      injection H as <-. split; [done |]. split; [lia | done].
  - rewrite (accel_run_raises e E) in H. discriminate.
Qed.

Lemma profile_upto_lookup (f : nat → Q) (k i : nat) (x : Q) :
  (f <$> seq 0 (S k)) !! i = Some x → (i ≤ k)%nat ∧ x = f i.
Proof.
  intros H. rewrite list_lookup_fmap in H.
  destruct (seq 0 (S k) !! i) as [j |] eqn:E; [| done].
  apply lookup_seq in E as [-> ?]. simpl in H. injection H as <-.
  split; [lia | done].
Qed.

(** C5. With [distance > 0] and [dt > 0] (and a mass that is not zero,
    so that the recurrence is defined) the requested step count is
    [floor(distance / dt) + 1]; the four arrays returned hold the states
    [0 .. k] of the recurrence, where [k] is the first step [i >= 1] with
    [s_i >= distance] (the terminating index is kept), and when no step of
    the requested count reaches [distance], [k] is the last requested
    index, so that all [floor(distance / dt) + 1] entries are returned. *)
Theorem C5_acceleration_truncation :
  ¬ mass_kg train_config == 0 →
  0 < distance_m → 0 < dt →
  let nz := (Qfloor (distance_m / dt) + 1)%Z in
  let n := Z.to_nat nz in
  requested_steps distance_m dt = Ok nz ∧ (1 ≤ nz)%Z
  ∧ ∃ k p,
      calculate_acceleration_profile train_config slope_percent distance_m
        v_max dt A B C adhesion_coef tunnel_factor curve_resistance max_acc = Ok p
      ∧ distance p = s_at <$> seq 0 (S k)
      ∧ speed p = v_at <$> seq 0 (S k)
      ∧ acceleration p = a_at <$> seq 0 (S k)
      ∧ tractive_effort p = F_at <$> seq 0 (S k)
      ∧ (k < n)%nat
      ∧ (∀ i, (1 ≤ i < k)%nat → s_at i < distance_m)
      ∧ (((1 ≤ k)%nat ∧ distance_m <= s_at k)
         ∨ (S k = n ∧ ∀ i, (1 ≤ i < n)%nat → s_at i < distance_m)).
Proof.
  intros _ Hd Hdt nz n.
  assert (Hreq : requested_steps distance_m dt = Ok nz).
  { apply requested_steps_nonzero. lra. }
  assert (Hnz : (1 ≤ nz)%Z).
  { assert (0 <= distance_m / dt).
    { apply Qle_shift_div_l; [done | lra]. }
    pose proof (Qfloor_resp_le 0 (distance_m / dt) H) as Hf.
    change (Qfloor 0) with 0%Z in Hf. subst nz. lia. }
  split; [done |]. split; [done |].
  exists (stop_index n), (profile_upto (stop_index n)).
  split; [by apply accel_run_ok |].
  do 4 (split; [done |]).
  split; [apply accel_stop_index_range; lia |].
  unfold Accel.stop_index.
  destruct (find stops (seq 1 (n - 1))) as [j |] eqn:E; simpl.
  - split.
    + intros i Hi. apply Qleb_false. by apply (find_seq_first _ _ _ _ _ E).
    + left. apply find_seq_range in E as [Hj Hs].
      split; [lia | by apply Qleb_true].
  - assert (Hnone : ∀ i, (1 ≤ i < n)%nat → s_at i < distance_m).
    { intros i Hi. apply Qleb_false. apply (find_seq_none _ _ _ _ E). lia. }
    split; [intros i Hi; apply Hnone; lia |].
    right. split; [lia | done].
Qed.

(** C7. For [mass_kg > 0], [dt > 0] and [v_max >= 0], every speed of a
    returned profile lies in [[0, v_max]] and consecutive distances do not
    decrease. *)
Theorem C7_acceleration_invariants (p : profile) :
  0 < mass_kg train_config → 0 < dt → 0 <= v_max →
  calculate_acceleration_profile train_config slope_percent distance_m
    v_max dt A B C adhesion_coef tunnel_factor curve_resistance max_acc
  = Ok p →
  (∀ i v, speed p !! i = Some v → 0 <= v <= v_max)
  ∧ (∀ i x y, distance p !! i = Some x → distance p !! S i = Some y → x <= y).
Proof.
  intros _ Hdt Hv H. apply accel_run_inv in H as (nz & _ & _ & ->).
  split.
  - intros i v Hi. apply profile_upto_lookup in Hi as [_ ->].
    by apply accel_v_at_range.
  - intros i x y Hx Hy.
    apply profile_upto_lookup in Hx as [_ ->].
    apply profile_upto_lookup in Hy as [_ ->].
    rewrite accel_s_at_step.
    pose proof (accel_v_at_range (S i) Hv). nra.
Qed.

(** C10. Index 0 of each of the four returned arrays holds 0. *)
Theorem C10_acceleration_index_zero (p : profile) :
  calculate_acceleration_profile train_config slope_percent distance_m
    v_max dt A B C adhesion_coef tunnel_factor curve_resistance max_acc
  = Ok p →
  distance p !! 0%nat = Some 0
  ∧ speed p !! 0%nat = Some 0
  ∧ acceleration p !! 0%nat = Some 0
  ∧ tractive_effort p !! 0%nat = Some 0.
Proof.
  intros H. apply accel_run_inv in H as (nz & _ & _ & ->). done.
Qed.

End AccelFacts.

Section AccelWitnesses.

Import Config Accel.

Let passenger : TrainConfig :=
  {| mass_kg := 50000; tractive_effort_n := 200000; train_type := "test" |}.

Lemma C5_witness :
  requested_steps 1000 1 = Ok 1001%Z
  ∧ ∃ k p,
      calculate_acceleration_profile passenger 1 1000 55 1 1500 (25 # 10)
        (8 # 1000) (25 # 100) 0 1000 1 = Ok p
      ∧ length (distance p) = S k ∧ (k < 1001)%nat.
Proof.
  destruct (C5_acceleration_truncation passenger 1 1000 55 1 1500 (25 # 10)
              (8 # 1000) (25 # 100) 0 1000 1)
    as (Hreq & _ & k & p & Hp & Hs & _ & _ & _ & Hk & _).
  - unfold Qeq. simpl. lia.
  - reflexivity.
  - reflexivity.
  - split; [exact Hreq |]. exists k, p. split; [exact Hp |]. split.
    + rewrite Hs, length_fmap, length_seq. reflexivity.
    + exact Hk.
Defined.

Lemma C7_witness :
  ∃ p,
    calculate_acceleration_profile passenger 1 20 55 1 1500 (25 # 10)
      (8 # 1000) (25 # 100) 0 1000 1 = Ok p
    ∧ speed p = [0; 1; 2; 3; 4; 5; 6]
    ∧ (∀ i v, speed p !! i = Some v → 0 <= v <= 55)
    ∧ (∀ i x y, distance p !! i = Some x → distance p !! S i = Some y
                → x <= y).
Proof.
  eexists. split; [vm_compute; reflexivity |]. split; [reflexivity |].
  apply (C7_acceleration_invariants passenger 1 20 55 1 1500 (25 # 10)
           (8 # 1000) (25 # 100) 0 1000 1).
  - reflexivity.
  - reflexivity.
  - unfold Qle. simpl. lia.
  - vm_compute. reflexivity.
Defined.

Lemma C10_witness :
  ∃ p,
    calculate_acceleration_profile passenger 1 20 55 1 1500 (25 # 10)
      (8 # 1000) (25 # 100) 0 1000 1 = Ok p
    ∧ distance p !! 0%nat = Some 0
    ∧ speed p !! 0%nat = Some 0
    ∧ acceleration p !! 0%nat = Some 0
    ∧ tractive_effort p !! 0%nat = Some 0.
Proof.
  eexists. split; [vm_compute; reflexivity |].
  apply (C10_acceleration_index_zero passenger 1 20 55 1 1500 (25 # 10)
           (8 # 1000) (25 # 100) 0 1000 1).
  vm_compute. reflexivity.
Defined.

End AccelWitnesses.

(** ** [calculate_braking_profile] *)

Section BrakingFacts.

Import Braking.

Variable np_sqrt : Q → Q.
Variables initial_speed distance_m : Q.
Variable slope_profile : option (list Q).
Variables deceleration_profile min_dec max_dec dt g : Q.

Abbreviation bstep := (Braking.step np_sqrt distance_m slope_profile
                      deceleration_profile min_dec max_dec dt g).
Abbreviation bstate_at := (Braking.state_at np_sqrt initial_speed slope_profile
                          deceleration_profile min_dec max_dec dt g).
Abbreviation bs_at := (Braking.s_at np_sqrt initial_speed slope_profile
                      deceleration_profile min_dec max_dec dt g).
Abbreviation bv_at := (Braking.v_at np_sqrt initial_speed slope_profile
                      deceleration_profile min_dec max_dec dt g).
Abbreviation ba_at := (Braking.a_at np_sqrt initial_speed slope_profile
                      deceleration_profile min_dec max_dec dt g).
Abbreviation bstops := (Braking.stops np_sqrt initial_speed distance_m
                       slope_profile deceleration_profile min_dec max_dec
                       dt g).
Abbreviation bstop_index := (Braking.stop_index np_sqrt initial_speed distance_m
                            slope_profile deceleration_profile min_dec
                            max_dec dt g).
Abbreviation bprofile_upto := (Braking.profile_upto np_sqrt initial_speed
                              slope_profile deceleration_profile min_dec
                              max_dec dt g).
Abbreviation bcovers := (Braking.covers slope_profile).
Abbreviation bcalculate := (calculate_braking_profile np_sqrt initial_speed
                           distance_m slope_profile deceleration_profile
                           min_dec max_dec dt g).

(** The arrays at the start of iteration [i]. *)
Let arrays (n i : nat) : profile :=
  {| distance := filled n bs_at i; speed := filled n bv_at i;
     deceleration := filled n ba_at i |}.

Lemma braking_step_spec (n i : nat) :
  (1 ≤ i < n)%nat → bcovers i →
  bstep (arrays n i) i
  = Ok (if bstops i then Break (bprofile_upto i)
        else Continue (arrays n (S i))).
Proof.
  intros Hi Hc. destruct i as [| j]; [lia |].
  unfold Braking.step, arrays.
  replace (S j - 1)%nat with j by lia.
  assert (Hslope : match slope_profile with
                   | Some sp => getitem sp j
                   | None => Ok 0
                   end = Ok (slope_or_zero slope_profile j)).
  { unfold Braking.covers, slope_or_zero in *.
    destruct slope_profile as [sp |]; [| done].
    apply getitem_nth. lia. }
  rewrite Hslope. cbn [mbind result_bind].
  assert (Ha : ∀ x, x = ba_at (S j) →
            setitem (filled n ba_at (S j)) (S j) x
            = Ok (filled n ba_at (S (S j)))).
  { intros x. apply filled_setitem. lia. }
  assert (Hv : ∀ x, x = bv_at (S j) →
            setitem (filled n bv_at (S j)) (S j) x
            = Ok (filled n bv_at (S (S j)))).
  { intros x. apply filled_setitem. lia. }
  assert (Hs : ∀ x, x = bs_at (S j) →
            setitem (filled n bs_at (S j)) (S j) x
            = Ok (filled n bs_at (S (S j)))).
  { intros x. apply filled_setitem. lia. }
  assert (Hvp : getitem (filled n bv_at (S j)) j = Ok (bv_at j))
    by (apply filled_getitem; lia).
  assert (Hsp : getitem (filled n bs_at (S j)) j = Ok (bs_at j))
    by (apply filled_getitem; lia).
  unfold Braking.stops.
  unfold Braking.a_at, Braking.v_at, Braking.s_at in *.
  cbn [Braking.state_at] in *.
  destruct (bstate_at j) as [[s v] a] eqn:E.
  cbn [Braking.next_state fst snd] in *. unfold clamped_dec in *.
  rewrite Ha by reflexivity. cbn [mbind result_bind].
  rewrite Hvp. cbn [mbind result_bind].
  rewrite Hv by reflexivity. cbn [mbind result_bind].
  rewrite Hsp. cbn [mbind result_bind].
  rewrite Hs by reflexivity. cbn [mbind result_bind].
  match goal with |- (if ?b then _ else _) = _ => destruct b end.
  - unfold Braking.profile_upto. rewrite !filled_slice. done.
  - done.
Qed.

Lemma braking_covers_mono (i j : nat) :
  (i ≤ j)%nat → bcovers j → bcovers i.
Proof.
  unfold Braking.covers. destruct slope_profile; [lia | done].
Qed.

Lemma braking_covers_some (sp : list Q) (k : nat) :
  slope_profile = Some sp → (k ≤ length sp)%nat → bcovers k.
Proof.
  unfold Braking.covers. destruct slope_profile as [l |]; [| done].
  by intros [= ->].
Qed.

(** A step whose slope entry is missing raises. *)
Lemma braking_step_uncovered (n i : nat) (sp : list Q) (st : profile) :
  slope_profile = Some sp → (length sp < i)%nat →
  bstep st i = Raise IndexError.
Proof.
  intros Hsp Hi. unfold Braking.step. destruct st as [s v a].
  rewrite Hsp. rewrite (getitem_None sp (i - 1)) by lia. done.
Qed.

Lemma braking_loop_covered (n k i : nat) :
  (1 ≤ i)%nat → (i + k = n)%nat →
  bcovers (default (n - 1)%nat (find bstops (seq i k))) →
  for_each_break (seq i k) bstep (arrays n i)
  = Ok (bprofile_upto (default (n - 1)%nat (find bstops (seq i k)))).
Proof.
  revert i. induction k as [| k IH]; intros i Hi Hn Hc.
  - simpl. rewrite Nat.add_0_r in Hn. subst i. unfold arrays.
    rewrite !filled_full by lia. done.
  - change (seq i (S k)) with (i :: seq (S i) k) at 1.
    cbn [for_each_break].
    assert (Hci : bcovers i).
    { apply (braking_covers_mono i _) in Hc; [done |].
      destruct (find bstops (seq i (S k))) as [j |] eqn:E; simpl.
      - apply find_seq_range in E. lia.
      - lia. }
    rewrite braking_step_spec by (done || lia).
    cbn [mbind result_bind]. destruct (bstops i) eqn:E.
    + by rewrite (find_seq_here _ _ _ E).
    + rewrite (find_seq_skip _ _ _ E) in *. apply IH; [lia | lia | done].
Qed.

Lemma braking_loop_uncovered (n k i : nat) (sp : list Q) :
  slope_profile = Some sp →
  (1 ≤ i)%nat → (i + k = n)%nat → (i ≤ S (length sp))%nat →
  (length sp < default (n - 1)%nat (find bstops (seq i k)))%nat →
  for_each_break (seq i k) bstep (arrays n i) = Raise IndexError.
Proof.
  intros Hsp. revert i. induction k as [| k IH]; intros i Hi Hn Hle Hlt.
  - simpl in Hlt. lia.
  - change (seq i (S k)) with (i :: seq (S i) k) at 1.
    cbn [for_each_break].
    destruct (decide (length sp < i)%nat) as [Hunc | Hcov].
    + by rewrite (braking_step_uncovered n i sp).
    + rewrite braking_step_spec;
        [| lia | unfold Braking.covers; rewrite Hsp; lia].
      cbn [mbind result_bind]. destruct (bstops i) eqn:E.
      * rewrite (find_seq_here _ _ _ E) in Hlt. simpl in Hlt. lia.
      * rewrite (find_seq_skip _ _ _ E) in Hlt. apply IH; [lia | lia | lia | done].
Qed.

Lemma braking_start (nz : Z) :
  requested_steps distance_m dt = Ok nz → (1 ≤ nz)%Z →
  bcalculate
  = for_each_break (seq 1 (Z.to_nat nz - 1)) bstep (arrays (Z.to_nat nz) 1).
Proof.
  intros Hreq Hnz. unfold calculate_braking_profile.
  rewrite Hreq. cbn [mbind result_bind]. unfold np_zeros.
  destruct (nz <? 0)%Z eqn:E; [apply Z.ltb_lt in E; lia |].
  cbn [mbind result_bind].
  set (n := Z.to_nat nz). assert (Hn : (1 ≤ n)%nat) by lia.
  assert (Hz : ∀ f : nat → Q, f 0%nat = 0 → filled n f 1 = replicate n 0).
  { intros f Hf. unfold filled. destruct n as [| m]; [lia |].
    simpl. by rewrite Hf, Nat.sub_0_r. }
  rewrite (filled_start n bv_at initial_speed Hn eq_refl).
  cbn [mbind result_bind].
  assert (Hset : setitem (replicate n 0) 0 0 = Ok (replicate n 0)).
  { rewrite (filled_start n (λ _, 0) 0 Hn eq_refl). f_equal. by apply Hz. }
  rewrite Hset. cbn [mbind result_bind].
  unfold py_range. fold n. unfold arrays.
  by rewrite (Hz bs_at eq_refl), (Hz ba_at eq_refl).
Qed.

Lemma braking_run_ok (nz : Z) :
  requested_steps distance_m dt = Ok nz → (1 ≤ nz)%Z →
  bcovers (bstop_index (Z.to_nat nz)) →
  bcalculate = Ok (bprofile_upto (bstop_index (Z.to_nat nz))).
Proof.
  intros Hreq Hnz Hc. rewrite (braking_start nz Hreq Hnz).
  apply braking_loop_covered; [lia | lia | done].
Qed.

Lemma braking_run_uncovered (nz : Z) (sp : list Q) :
  requested_steps distance_m dt = Ok nz → (1 ≤ nz)%Z →
  slope_profile = Some sp →
  (length sp < bstop_index (Z.to_nat nz))%nat →
  bcalculate = Raise IndexError.
Proof.
  intros Hreq Hnz Hsp Hlt. rewrite (braking_start nz Hreq Hnz).
  apply (braking_loop_uncovered _ _ _ sp); [done | lia | lia | lia | done].
Qed.

Lemma braking_run_raises (e : exn) :
  requested_steps distance_m dt = Raise e → bcalculate = Raise e.
Proof.
  intros H. unfold calculate_braking_profile. by rewrite H.
Qed.

Lemma braking_run_negative (nz : Z) :
  requested_steps distance_m dt = Ok nz → (nz < 0)%Z →
  bcalculate = Raise ValueError.
Proof.
  intros H Hnz. unfold calculate_braking_profile. rewrite H.
  cbn [mbind result_bind]. unfold np_zeros.
  apply Z.ltb_lt in Hnz. by rewrite Hnz.
Qed.

Lemma braking_run_empty :
  requested_steps distance_m dt = Ok 0%Z → bcalculate = Raise IndexError.
Proof.
  intros H. unfold calculate_braking_profile. by rewrite H.
Qed.

Lemma braking_stop_index_range (n : nat) :
  (1 ≤ n)%nat → (bstop_index n ≤ n - 1)%nat.
Proof.
  intros Hn. unfold Braking.stop_index.
  destruct (find bstops (seq 1 (n - 1))) as [j |] eqn:E; simpl; [| lia].
  apply find_seq_range in E. lia.
Qed.

(** Consequences of the recurrence. *)
Lemma py_max_second (a b : Q) : b <= py_max a b.
Proof. destruct (py_max_cases a b) as [[-> ?] | [-> ?]]; lra. Qed.

Lemma clamped_dec_negative (j : nat) :
  min_dec < 0 → max_dec < 0 →
  clamped_dec slope_profile deceleration_profile min_dec max_dec g j < 0.
Proof.
  intros Hmin Hmax. unfold clamped_dec.
  match goal with |- py_max min_dec (py_min ?x max_dec) < 0 =>
    pose proof (py_min_upper x max_dec);
    destruct (py_max_cases min_dec (py_min x max_dec)) as [[-> _] | [-> _]]
  end; lra.
Qed.

Lemma braking_v_at_step (i : nat) :
  bv_at (S i)
  = let dec := clamped_dec slope_profile deceleration_profile
                           min_dec max_dec g i in
    let v1 := np_sqrt (py_max 0 (2 * dec + bv_at i ^ 2)) in
    let v2 := np_div (bv_at i + v1) 2 in
    py_max 0 (bv_at i + np_div (dec * 1) (py_max v2 (1 # 1000000))).
Proof.
  unfold Braking.v_at. cbn [Braking.state_at].
  by destruct (bstate_at i) as [[s v] a].
Qed.

Lemma braking_s_at_step (i : nat) : bs_at (S i) = bs_at i + bv_at (S i) * dt.
Proof.
  unfold Braking.s_at, Braking.v_at. cbn [Braking.state_at].
  by destruct (bstate_at i) as [[s v] a].
Qed.

Lemma braking_v_at_nonneg (i : nat) : 0 <= initial_speed → 0 <= bv_at i.
Proof.
  intros H. destruct i as [| j]; [done |].
  rewrite braking_v_at_step. apply py_max_lower.
Qed.

Lemma braking_v_at_decreasing (i : nat) :
  0 <= initial_speed → min_dec < 0 → max_dec < 0 →
  bv_at (S i) <= bv_at i.
Proof.
  intros Hv Hmin Hmax. rewrite braking_v_at_step. cbv zeta.
  pose proof (braking_v_at_nonneg i Hv) as Hi.
  pose proof (clamped_dec_negative i Hmin Hmax) as Hdec.
  set (dec := clamped_dec _ _ _ _ _ _) in *.
  set (d := py_max _ (1 # 1000000)).
  assert (Hd : 0 < d).
  { pose proof (py_max_second
                 (np_div (bv_at i + np_sqrt (py_max 0 (2 * dec + bv_at i ^ 2))) 2)
                 (1 # 1000000)) as H.
    fold d in H. assert (0 < 1 # 1000000) by reflexivity. lra. }
  assert (Hq : np_div (dec * 1) d <= 0).
  { unfold np_div. apply Qle_shift_div_r; [done | lra]. }
  destruct (py_max_cases 0 (bv_at i + np_div (dec * 1) d)) as [[-> _] | [-> _]];
    lra.
Qed.

(** A run that ends on the speed condition ends at exactly 0. *)
Lemma braking_v_at_zero (i : nat) :
  (1 ≤ i)%nat → bv_at i <= 0 → bv_at i = 0.
Proof.
  intros Hi. destruct i as [| j]; [lia |].
  rewrite braking_v_at_step. cbv zeta.
  match goal with |- py_max 0 ?x <= 0 → _ =>
    destruct (py_max_cases 0 x) as [[-> ?] | [-> ?]]
  end; [lra | done].
Qed.

Lemma last_fmap_seq (f : nat → Q) (k : nat) :
  last (f <$> seq 0 (S k)) = Some (f k).
Proof. rewrite seq_S, fmap_app. cbn [fmap list_fmap]. by rewrite last_snoc. Qed.

Lemma requested_steps_valid :
  0 <= distance_m → 0 < dt →
  requested_steps distance_m dt = Ok (Qfloor (distance_m / dt) + 1)%Z
  ∧ (0 ≤ Qfloor (distance_m / dt))%Z.
Proof.
  intros Hd Hdt. split; [apply requested_steps_nonzero; lra |].
  assert (H : 0 <= distance_m / dt).
  { apply Qle_shift_div_l; [done | lra]. }
  apply (Qfloor_resp_le 0 (distance_m / dt) H).
Qed.

(** C3 (as amended). For [distance >= 0], [dt > 0], [initial_speed >= 0],
    negative deceleration bounds and a slope profile (if any) with an entry
    for every requested step, a profile is returned whose speeds never
    increase; its last speed is exactly 0 when the run ends on the speed
    condition [v_i <= 0], and otherwise the run ended because
    [s_i >= distance] or because all requested steps were used. *)
Theorem C3_braking_speed_profile :
  0 <= distance_m → 0 < dt → 0 <= initial_speed →
  min_dec < 0 → max_dec < 0 →
  let n := Z.to_nat (Qfloor (distance_m / dt) + 1) in
  Braking.covers slope_profile (n - 1)%nat →
  ∃ p,
    calculate_braking_profile np_sqrt initial_speed distance_m
      slope_profile deceleration_profile min_dec max_dec dt g = Ok p
    ∧ (∀ i x y, speed p !! i = Some x → speed p !! S i = Some y → y <= x)
    ∧ (last (speed p) = Some 0
       ∨ (∃ s, last (distance p) = Some s ∧ distance_m <= s)
       ∨ length (speed p) = n).
Proof.
  intros Hd Hdt Hv Hmin Hmax n Hc.
  destruct (requested_steps_valid Hd Hdt) as [Hreq Hfl].
  pose proof (braking_stop_index_range n ltac:(lia)) as Hk.
  exists (bprofile_upto (bstop_index n)). split.
  - apply braking_run_ok; [done | lia |].
    by apply (braking_covers_mono _ (n - 1)%nat).
  - split.
    + intros i x y Hx Hy.
      apply profile_upto_lookup in Hx as [_ ->].
      apply profile_upto_lookup in Hy as [_ ->].
      by apply braking_v_at_decreasing.
    + cbn [speed distance Braking.profile_upto].
      rewrite !last_fmap_seq, length_fmap, length_seq.
      unfold Braking.stop_index in *.
      destruct (find bstops (seq 1 (n - 1))) as [j |] eqn:E; simpl in *.
      * apply find_seq_range in E as [Hj Hs].
        unfold Braking.stops in Hs. apply orb_true_iff in Hs as [Hs | Hs].
        -- left. f_equal. apply braking_v_at_zero; [lia |].
           by apply Qleb_true.
        -- right. left. exists (bs_at j). split; [done | by apply Qleb_true].
      * right. right. lia.
Qed.

(** C9. When a slope profile is supplied, let [executed] be the number of
    integration steps of the run in which a missing slope entry would
    read as 0; it is at most [floor(distance / dt)], and step [i] reads
    [slope_profile[i - 1]].  If the profile has fewer than [executed]
    entries the call raises [IndexError] (after [len(slope_profile)]
    completed steps); if it has at least [executed] entries the call
    returns the profile of those steps. *)
Theorem C9_braking_short_slope_profile (sp : list Q) :
  slope_profile = Some sp → 0 <= distance_m → 0 < dt →
  let n := Z.to_nat (Qfloor (distance_m / dt) + 1) in
  let executed := Braking.stop_index np_sqrt initial_speed distance_m
                    slope_profile deceleration_profile min_dec max_dec dt g
                    n in
  let run := calculate_braking_profile np_sqrt initial_speed distance_m
               slope_profile deceleration_profile min_dec max_dec dt g in
  (Z.of_nat executed ≤ Qfloor (distance_m / dt))%Z
  ∧ ((length sp < executed)%nat → run = Raise IndexError)
  ∧ ((executed ≤ length sp)%nat →
     run = Ok (Braking.profile_upto np_sqrt initial_speed slope_profile
                 deceleration_profile min_dec max_dec dt g executed)).
Proof.
  intros Hsp Hd Hdt n executed run. subst run.
  destruct (requested_steps_valid Hd Hdt) as [Hreq Hfl].
  pose proof (braking_stop_index_range n ltac:(lia)) as Hk.
  fold executed in Hk. split; [lia |]. split.
  - intros Hlt.
    apply (braking_run_uncovered (Qfloor (distance_m / dt) + 1)%Z sp);
      [done | lia | done | done].
  - intros Hle. apply braking_run_ok; [done | lia |].
    by apply (braking_covers_some sp).
Qed.

Lemma braking_run_cases :
  (dt == 0 → bcalculate = Raise ZeroDivisionError)
  ∧ (¬ dt == 0 → (Qfloor (distance_m / dt) + 1 < 0)%Z →
     bcalculate = Raise ValueError)
  ∧ (¬ dt == 0 → (Qfloor (distance_m / dt) + 1 = 0)%Z →
     bcalculate = Raise IndexError)
  ∧ (¬ dt == 0 → (1 ≤ Qfloor (distance_m / dt) + 1)%Z →
     slope_profile = None →
     ∃ p, bcalculate = Ok p
          ∧ (length (speed p) ≤ Z.to_nat (Qfloor (distance_m / dt) + 1))%nat).
Proof.
  repeat split.
  - intros H. by apply braking_run_raises, requested_steps_zero.
  - intros H Hn. apply (braking_run_negative _ (requested_steps_nonzero _ _ H) Hn).
  - intros H Hn. apply braking_run_empty.
    rewrite <- Hn. by apply requested_steps_nonzero.
  - intros H Hn Hnone. eexists. split.
    + apply braking_run_ok;
        [by apply requested_steps_nonzero | done |].
      unfold Braking.covers. by rewrite Hnone.
    + cbn [speed Braking.profile_upto]. rewrite length_fmap, length_seq.
      pose proof (braking_stop_index_range
                    (Z.to_nat (Qfloor (distance_m / dt) + 1)) ltac:(lia)).
      lia.
Qed.

End BrakingFacts.

Section BrakingWitnesses.

Import Braking.

Lemma C3_witness :
  ∃ p,
    calculate_braking_profile sqrt_trunc 3 10 None (-1) (-12 # 10) (-5 # 10)
                              1 (981 # 100) = Ok p
    ∧ (∀ i x y, speed p !! i = Some x → speed p !! S i = Some y → y <= x)
    ∧ (last (speed p) = Some 0
       ∨ (∃ s, last (distance p) = Some s ∧ 10 <= s)
       ∨ length (speed p) = 11%nat).
Proof.
  apply (C3_braking_speed_profile sqrt_trunc 3 10 None (-1) (-12 # 10)
           (-5 # 10) 1 (981 # 100)).
  - unfold Qle. simpl. lia.
  - reflexivity.
  - unfold Qle. simpl. lia.
  - reflexivity.
  - reflexivity.
  - exact I.
Defined.

(** C3 as stated fails: braking from 2.25 m/s over 1 m with the default
    deceleration ends after one step because [s_1 = 1.75 >= 1], and the
    last speed is 1.75, not 0. *)
Lemma C3_counterexample :
  ∃ p,
    calculate_braking_profile sqrt_trunc (9 # 4) 1 None (-1) (-12 # 10)
                              (-5 # 10) 1 (981 # 100) = Ok p
    ∧ length (speed p) = 2%nat
    ∧ ∃ v, last (speed p) = Some v ∧ v == 7 # 4 ∧ ¬ v == 0.
Proof.
  eexists. split; [vm_compute; reflexivity |]. split; [reflexivity |].
  eexists. split; [reflexivity |]. split; [reflexivity | discriminate].
Qed.

Lemma C9_witness :
  calculate_braking_profile sqrt_trunc 3 3 (Some [0]) (-1) (-12 # 10)
                            (-5 # 10) 1 (981 # 100) = Raise IndexError.
Proof.
  destruct (C9_braking_short_slope_profile sqrt_trunc 3 3 (Some [0]) (-1)
              (-12 # 10) (-5 # 10) 1 (981 # 100) [0] eq_refl)
    as (_ & Hshort & _).
  - unfold Qle. simpl. lia.
  - reflexivity.
  - apply Hshort. vm_compute. lia.
Defined.

End BrakingWitnesses.

(** ** Parameter checking in the integrators *)

Section EntryChecks.

Import Config.

Lemma accel_run_cases (train_config : TrainConfig)
    (slope_percent distance_m v_max dt A B C adhesion_coef tunnel_factor
     curve_resistance max_acc : Q) :
  let run := Accel.calculate_acceleration_profile train_config slope_percent
               distance_m v_max dt A B C adhesion_coef tunnel_factor
               curve_resistance max_acc in
  (dt == 0 → run = Raise ZeroDivisionError)
  ∧ (¬ dt == 0 → (Qfloor (distance_m / dt) + 1 < 0)%Z →
     run = Raise ValueError)
  ∧ (¬ dt == 0 → (Qfloor (distance_m / dt) + 1 = 0)%Z →
     run = Raise IndexError)
  ∧ (¬ dt == 0 → (1 ≤ Qfloor (distance_m / dt) + 1)%Z →
     ∃ p, run = Ok p
          ∧ (length (Accel.speed p)
             ≤ Z.to_nat (Qfloor (distance_m / dt) + 1))%nat).
Proof.
  intros run. subst run. repeat split.
  - intros H. by apply accel_run_raises, requested_steps_zero.
  - intros H Hn.
    apply (accel_run_negative _ _ _ _ _ _ _ _ _ _ _ _ _
             (requested_steps_nonzero _ _ H) Hn).
  - intros H Hn. apply accel_run_empty.
    rewrite <- Hn. by apply requested_steps_nonzero.
  - intros H Hn. eexists. split.
    + apply accel_run_ok; [by apply requested_steps_nonzero | done].
    + cbn [Accel.speed Accel.profile_upto]. rewrite length_fmap, length_seq.
      pose proof (accel_stop_index_range train_config slope_percent distance_m
                    v_max dt A B C adhesion_coef tunnel_factor curve_resistance
                    max_acc (Z.to_nat (Qfloor (distance_m / dt) + 1))
                    ltac:(lia)).
      lia.
Qed.

(** C2 (as amended). Neither integrator checks its physics parameters.
    A call fails at entry, before any integration step and without a
    profile, exactly when the step count cannot be set up: [dt = 0]
    raises [ZeroDivisionError], a step count [floor(distance/dt) + 1]
    below 0 raises [ValueError] and a step count of 0 raises [IndexError]
    (a negative [dt] fails only when that count is below 1).  For every other
    call, whatever the mass, the tractive effort and the deceleration
    bounds, the integration runs and a profile of at most
    [floor(distance/dt) + 1] entries is returned (for braking: when no
    slope profile is supplied). *)
Theorem C2_entry_failures_only_from_step_count :
  (∀ (train_config : TrainConfig)
     (slope_percent distance_m v_max dt A B C adhesion_coef tunnel_factor
      curve_resistance max_acc : Q),
     let run := Accel.calculate_acceleration_profile train_config
                  slope_percent distance_m v_max dt A B C adhesion_coef
                  tunnel_factor curve_resistance max_acc in
     (dt == 0 → run = Raise ZeroDivisionError)
     ∧ (¬ dt == 0 → (Qfloor (distance_m / dt) + 1 < 0)%Z →
        run = Raise ValueError)
     ∧ (¬ dt == 0 → (Qfloor (distance_m / dt) + 1 = 0)%Z →
        run = Raise IndexError)
     ∧ (¬ dt == 0 → (1 ≤ Qfloor (distance_m / dt) + 1)%Z →
        ∃ p, run = Ok p
             ∧ (length (Accel.speed p)
                ≤ Z.to_nat (Qfloor (distance_m / dt) + 1))%nat))
  ∧ (∀ (np_sqrt : Q → Q) (initial_speed distance_m : Q)
       (deceleration_profile min_dec max_dec dt g : Q),
       let run := Braking.calculate_braking_profile np_sqrt initial_speed
                    distance_m None deceleration_profile min_dec max_dec
                    dt g in
       (dt == 0 → run = Raise ZeroDivisionError)
       ∧ (¬ dt == 0 → (Qfloor (distance_m / dt) + 1 < 0)%Z →
          run = Raise ValueError)
       ∧ (¬ dt == 0 → (Qfloor (distance_m / dt) + 1 = 0)%Z →
          run = Raise IndexError)
       ∧ (¬ dt == 0 → (1 ≤ Qfloor (distance_m / dt) + 1)%Z →
          ∃ p, run = Ok p
               ∧ (length (Braking.speed p)
                  ≤ Z.to_nat (Qfloor (distance_m / dt) + 1))%nat)).
Proof.
  split.
  - intros. apply accel_run_cases.
  - intros np_sqrt initial_speed distance_m dec min_dec max_dec dt g run.
    destruct (braking_run_cases np_sqrt initial_speed distance_m None
                dec min_dec max_dec dt g) as (H0 & Hneg & Hzero & Hok).
    repeat split; [done | done | done |].
    intros Hdt Hn. by apply Hok.
Qed.

Lemma C2_witness :
  Braking.calculate_braking_profile Braking.sqrt_trunc 55 1000 None (-1)
    (-12 # 10) (-5 # 10) 0 (981 # 100) = Raise ZeroDivisionError
  ∧ Braking.calculate_braking_profile Braking.sqrt_trunc 55 1000 None (-1)
      (-12 # 10) (-5 # 10) (-1) (981 # 100) = Raise ValueError
  ∧ ∃ p, Braking.calculate_braking_profile Braking.sqrt_trunc 55 1000 None
           (-1) (1 # 2) (1 # 2) 1 (981 # 100) = Ok p.
Proof.
  destruct C2_entry_failures_only_from_step_count as [_ Hb].
  split; [| split].
  - apply (Hb Braking.sqrt_trunc 55 1000 (-1) (-12 # 10) (-5 # 10) 0
              (981 # 100)).
    reflexivity.
  - apply (Hb Braking.sqrt_trunc 55 1000 (-1) (-12 # 10) (-5 # 10) (-1)
              (981 # 100)).
    + discriminate.
    + vm_compute. reflexivity.
  - destruct (Hb Braking.sqrt_trunc 55 1000 (-1) (1 # 2) (1 # 2) 1
                 (981 # 100)) as (_ & _ & _ & Hok).
    destruct Hok as (p & Hp & _).
    + discriminate.
    + vm_compute. discriminate.
    + exists p. exact Hp.
Defined.

(** C2 as stated fails: deceleration bounds that are not negative, a
    non-positive mass and tractive effort, and a negative time step are
    all accepted, and integration steps run. *)
Lemma C2_counterexample :
  (∃ p, Braking.calculate_braking_profile Braking.sqrt_trunc 1 2 None (-1)
          0 0 1 (981 # 100) = Ok p
        ∧ Braking.speed p = [1; 2 # 2; 8 # 8])
  ∧ (∃ p, Braking.calculate_braking_profile Braking.sqrt_trunc 1 2 None (-1)
            1 (-1) 1 (981 # 100) = Ok p
          ∧ length (Braking.speed p) = 3%nat)
  ∧ (∃ p, Braking.calculate_braking_profile Braking.sqrt_trunc 2 (-1) None
            (-1) (-12 # 10) (-5 # 10) (-1) (981 # 100) = Ok p
          ∧ length (Braking.speed p) = 2%nat)
  ∧ (∃ p, Accel.calculate_acceleration_profile
            {| mass_kg := -50000; tractive_effort_n := 0;
               train_type := "invalid" |}
            1 3 55 1 1500 (25 # 10) (8 # 1000) (25 # 100) 0 1000 1 = Ok p
          ∧ Accel.speed p = [0; 1; 2]).
Proof.
  split; [| split; [| split]]; eexists;
    (split; [vm_compute; reflexivity | reflexivity]).
Qed.

End EntryChecks.

(** ** [calculate_block_occupancy] *)

Section BlockFacts.

Import Blocks.

Lemma np_where_from_bound (i j : nat) (mask : list bool) :
  j ∈ np_where_from i mask → (i ≤ j < i + length mask)%nat.
Proof.
  revert i. induction mask as [| b m IH]; intros i H; simpl in H.
  - by apply not_elem_of_nil in H.
  - destruct b.
    + apply elem_of_cons in H as [-> | H]; [simpl; lia |].
      apply IH in H. simpl. lia.
    + apply IH in H. simpl. lia.
Qed.

Lemma np_where_bound (j : nat) (mask : list bool) :
  j ∈ np_where mask → (j < length mask)%nat.
Proof. intros H. apply np_where_from_bound in H. lia. Qed.

Lemma bind_Ok_inv {A B} (m : result A) (f : A → result B) (b : B) :
  m ≫= f = Ok b → ∃ a, m = Ok a ∧ f a = Ok b.
Proof. destruct m as [a | e]; [by exists a | done]. Qed.

Lemma index_errors_only_bind {A B} (m : result A) (f : A → result B) :
  index_errors_only m → (∀ a, index_errors_only (f a)) →
  index_errors_only (m ≫= f).
Proof.
  intros Hm Hf e. destruct m as [a | e']; [apply Hf |].
  intros [= <-]. by apply Hm.
Qed.

Lemma index_errors_only_Ok {A} (a : A) : index_errors_only (Ok a).
Proof. by intros e. Qed.

Lemma index_errors_only_getitem {A} (a : list A) (i : nat) :
  index_errors_only (getitem a i).
Proof. unfold getitem. intros e. destruct (a !! i); [done | by intros [= <-]]. Qed.

Lemma index_errors_only_getitem_int {A} (a : list A) (i : Z) :
  index_errors_only (getitem_int a i).
Proof.
  unfold getitem_int. destruct (i <? 0)%Z.
  - destruct (i + Z.of_nat (length a) <? 0)%Z;
      [by intros e [= <-] | apply index_errors_only_getitem].
  - apply index_errors_only_getitem.
Qed.

Lemma getitem_int_nonneg {A} (a : list A) (i : Z) :
  (0 ≤ i)%Z → getitem_int a i = getitem a (Z.to_nat i).
Proof.
  intros H. unfold getitem_int.
  destruct (i <? 0)%Z eqn:E; [apply Z.ltb_lt in E; lia | done].
Qed.

(** A negative index at least [-len(a)] reads from the end of the array,
    a smaller one raises. *)
Lemma getitem_int_wraps {A} (a : list A) (i : Z) :
  (- Z.of_nat (length a) ≤ i < 0)%Z →
  getitem_int a i = getitem a (Z.to_nat (i + Z.of_nat (length a))).
Proof.
  intros H. unfold getitem_int.
  destruct (i <? 0)%Z eqn:E; [| apply Z.ltb_ge in E; lia].
  destruct (i + Z.of_nat (length a) <? 0)%Z eqn:E'; [| done].
  apply Z.ltb_lt in E'. lia.
Qed.

Lemma getitem_int_below {A} (a : list A) (i : Z) :
  (i < - Z.of_nat (length a))%Z → getitem_int a i = Raise IndexError.
Proof.
  intros H. unfold getitem_int.
  destruct (i <? 0)%Z eqn:E; [| apply Z.ltb_ge in E; lia].
  destruct (i + Z.of_nat (length a) <? 0)%Z eqn:E'; [done |].
  apply Z.ltb_ge in E'. lia.
Qed.

Variables speed_profile time_profile release_speed : list Q.
Variable train_length : Q.
Variables overlap release_time setting_time : list Q.
Variables reserve_before_arrival v_tol : Q.

Abbreviation row_of := (block_row speed_profile time_profile release_speed
                      train_length overlap release_time setting_time
                      reserve_before_arrival v_tol).

(** The guarded lookup [time_profile[i] if i < len(time_profile)] for a
    non-negative index: the entry, or [nan] past the end. *)
Lemma guarded_lookup_nonneg {B} (i : Z) (k : Q → result B) (d : B) :
  (0 ≤ i)%Z →
  (if (i <? len_time time_profile)%Z
   then t ← getitem_int time_profile i; k t
   else Ok d)
  = match time_profile !! Z.to_nat i with
    | Some t => k t
    | None => Ok d
    end.
Proof.
  intros Hi. unfold len_time.
  destruct (i <? Z.of_nat (length time_profile))%Z eqn:E.
  - apply Z.ltb_lt in E. rewrite getitem_int_nonneg by done.
    destruct (lookup_lt_is_Some_2 time_profile (Z.to_nat i)) as [t Ht];
      [lia |].
    by rewrite (getitem_Some _ _ _ Ht), Ht.
  - apply Z.ltb_ge in E. by rewrite lookup_ge_None_2 by lia.
Qed.

(** For a block position [bp >= 0] whose release index is not negative
    either, and per-block arrays that have an entry for block [k], no
    lookup raises: the arrival and release fields hold the entry of
    [time_profile] when the index is below its length and [nan]
    otherwise. *)
Lemma block_row_nonnegative (k : nat) (bp : Z) (rs ov rt st : Q) :
  release_speed !! k = Some rs → overlap !! k = Some ov →
  release_time !! k = Some rt → setting_time !! k = Some st →
  (length speed_profile ≤ length time_profile)%nat →
  (0 ≤ bp)%Z → (0 ≤ bp + py_round train_length + py_int ov)%Z →
  ∃ r, row_of k bp = Ok r
    ∧ arrival_time r = time_profile !! Z.to_nat bp
    ∧ release_time_at r
      = (λ t, t + rt)
          <$> time_profile !! Z.to_nat (bp + py_round train_length + py_int ov)
    ∧ (matched_index r = None →
       booking_time r
       = (λ t, t - reserve_before_arrival) <$> time_profile !! Z.to_nat bp).
Proof.
  intros Hrs Hov Hrt Hst Hlen Hbp Hrel. unfold block_row.
  rewrite (getitem_Some _ _ _ Hrs). cbn [mbind result_bind].
  set (speed_diff := (λ v, Qabs (v - rs)) <$> speed_profile).
  set (idx := np_where ((λ d, Qleb d v_tol) <$> speed_diff)).
  assert (Harr : ∀ B (f : option Q → result B),
            ((if (bp <? len_time time_profile)%Z
              then t ← getitem_int time_profile bp; Ok (Some t)
              else Ok None) ≫= f)
            = f (time_profile !! Z.to_nat bp)).
  { intros B f. rewrite (guarded_lookup_nonneg bp (λ t, Ok (Some t)) None Hbp).
    destruct (time_profile !! Z.to_nat bp); reflexivity. }
  assert (Hrelease : ∀ B (f : option Q → result B),
            ((if (bp + py_round train_length + py_int ov
                  <? len_time time_profile)%Z
              then t ← getitem_int time_profile
                         (bp + py_round train_length + py_int ov);
                   rt' ← getitem release_time k; Ok (Some (t + rt'))
              else Ok None) ≫= f)
            = f ((λ t, t + rt)
                   <$> time_profile
                       !! Z.to_nat (bp + py_round train_length + py_int ov))).
  { intros B f.
    rewrite (guarded_lookup_nonneg _
               (λ t, rt' ← getitem release_time k; Ok (Some (t + rt')))
               None Hrel).
    rewrite (getitem_Some _ _ _ Hrt).
    destruct (time_profile
                !! Z.to_nat (bp + py_round train_length + py_int ov));
      reflexivity. }
  destruct idx as [| b idx'] eqn:Eidx.
  - cbn [length Nat.eqb].
    rewrite (guarded_lookup_nonneg bp
               (λ t, Ok (None, None, Some (t - reserve_before_arrival)))
               (None, None, None) Hbp).
    destruct (time_profile !! Z.to_nat bp) as [t |] eqn:Et;
      cbn [mbind result_bind]; rewrite Harr, (getitem_Some _ _ _ Hov);
      cbn [mbind result_bind]; rewrite Hrelease;
      (eexists; split; [reflexivity |]); cbn; repeat split.
  - cbn [length Nat.eqb getitem lookup list_lookup mbind result_bind].
    assert (Hb : (b < length speed_profile)%nat).
    { assert (Hin : b ∈ idx) by (rewrite Eidx; left).
      apply np_where_bound in Hin.
      unfold speed_diff in Hin. by rewrite !length_fmap in Hin. }
    destruct (lookup_lt_is_Some_2 speed_diff b) as [d Hd];
      [unfold speed_diff; by rewrite length_fmap |].
    destruct (lookup_lt_is_Some_2 time_profile b) as [t Ht]; [lia |].
    change (match speed_diff !! b with
            | Some x => Ok x
            | None => Raise IndexError
            end) with (getitem speed_diff b).
    change (match time_profile !! b with
            | Some x => Ok x
            | None => Raise IndexError
            end) with (getitem time_profile b).
    change (match setting_time !! k with
            | Some x => Ok x
            | None => Raise IndexError
            end) with (getitem setting_time k).
    rewrite (getitem_Some _ _ _ Hd), (getitem_Some _ _ _ Ht),
      (getitem_Some _ _ _ Hst).
    cbn [mbind result_bind]. rewrite Harr.
    change (match overlap !! k with
            | Some x => Ok x
            | None => Raise IndexError
            end) with (getitem overlap k).
    rewrite (getitem_Some _ _ _ Hov).
    cbn [mbind result_bind]. rewrite Hrelease.
    eexists. split; [reflexivity |]. cbn. repeat split. discriminate.
Qed.

(** Every lookup failure of an iteration is an [IndexError]. *)
Lemma block_row_index_errors_only (k : nat) (bp : Z) :
  index_errors_only (row_of k bp).
Proof.
  unfold block_row.
  repeat first
    [ apply index_errors_only_bind; [| intros ?]
    | apply index_errors_only_getitem
    | apply index_errors_only_getitem_int
    | apply index_errors_only_Ok
    | match goal with
      | |- index_errors_only (if ?b then _ else _) => destruct b
      | |- index_errors_only (let '(_, _) := ?x in _) => destruct x
      end ].
Qed.

(** A block position below [-len(time_profile)] passes the guard
    [bp < len(time_profile)] and the lookup raises, whatever the other
    inputs are. *)
Lemma block_row_below_raises (k : nat) (bp : Z) :
  (bp < - Z.of_nat (length time_profile))%Z →
  row_of k bp = Raise IndexError.
Proof.
  intros Hbp.
  assert (Hguard : (bp <? len_time time_profile)%Z = true).
  { apply Z.ltb_lt. unfold len_time. lia. }
  destruct (row_of k bp) as [r | e] eqn:E.
  - exfalso. unfold block_row in E.
    rewrite Hguard, (getitem_int_below time_profile bp Hbp) in E.
    apply bind_Ok_inv in E as (rs & _ & E).
    apply bind_Ok_inv in E as ([[c0 c1] c2] & _ & E).
    discriminate E.
  - f_equal. by apply (block_row_index_errors_only k bp).
Qed.

(** A block position in [[-len(time_profile), 0)] passes the guard and
    the arrival time is read from the end of [time_profile]. *)
Lemma block_row_wraps (k : nat) (bp : Z) (r : row) :
  (- Z.of_nat (length time_profile) ≤ bp < 0)%Z →
  row_of k bp = Ok r →
  arrival_time r
  = time_profile !! Z.to_nat (bp + Z.of_nat (length time_profile))
  ∧ is_Some (arrival_time r).
Proof.
  intros Hbp E.
  assert (Hguard : (bp <? len_time time_profile)%Z = true).
  { apply Z.ltb_lt. unfold len_time. lia. }
  destruct (lookup_lt_is_Some_2 time_profile
              (Z.to_nat (bp + Z.of_nat (length time_profile))))
    as [t Ht]; [lia |].
  unfold block_row in E.
  rewrite Hguard, (getitem_int_wraps time_profile bp Hbp),
    (getitem_Some _ _ _ Ht) in E.
  apply bind_Ok_inv in E as (rs & _ & E).
  apply bind_Ok_inv in E as ([[c0 c1] c2] & _ & E).
  cbn [mbind result_bind] in E.
  apply bind_Ok_inv in E as (ov & _ & E).
  apply bind_Ok_inv in E as (c4 & _ & E).
  injection E as <-. cbn. rewrite Ht. by split.
Qed.

(** C4 fails for negative block positions.  The guard
    [bp < len(time_profile)] accepts every negative [bp]: position [-5]
    on a profile of three entries makes [time_profile[-5]] raise
    [IndexError], and position [-1] silently reads the last entry of
    [time_profile] as arrival time instead of leaving NaN. *)
Theorem C4_negative_block_position :
  calculate_block_occupancy [-5]%Z [10; 20; 30] [0; 1; 2] [0; 1; 2] [100]
                            1 [1] [1] [1] 1 (1 # 10) = Raise IndexError
  ∧ ∃ r, calculate_block_occupancy [-1]%Z [10; 20; 30] [0; 1; 2] [0; 1; 2]
                                   [100] 1 [1] [1] [1] 1 (1 # 10) = Ok [r]
         ∧ arrival_time r = Some 2
         ∧ booking_time r = Some (2 - 1).
Proof.
  split; [vm_compute; reflexivity |].
  eexists. split; [vm_compute; reflexivity |]. split; reflexivity.
Qed.

End BlockFacts.

(** ** The closed-form braking helpers *)

Section BrakingFormulaFacts.

Import BrakingFormulas.

(** A deceleration that is not positive is refused; otherwise the
    distance is [v^2 / (2 d)] and is not negative. *)
Theorem braking_distance_cases (v d : Q) :
  (d <= 0 → calculate_braking_distance v d = Raise ValueError)
  ∧ (0 < d →
     ∃ x, calculate_braking_distance v d = Ok x
          ∧ x * (2 * d) == v ^ 2 ∧ 0 <= x).
Proof.
  unfold calculate_braking_distance. split.
  - intros H. apply Qleb_true in H. by rewrite H.
  - intros H. assert (E : Qleb d 0 = false) by by apply Qleb_false.
    rewrite E. eexists. split; [reflexivity |]. unfold np_div. split.
    + field. lra.
    + apply Qle_shift_div_l; [lra |]. rewrite Qmult_0_l.
      simpl. nra.
Qed.

(** The braking distance is the mean speed [v / 2] times the stopping
    time, and both helpers accept and refuse the same decelerations. *)
Theorem braking_distance_is_mean_speed_times_time (v d : Q) :
  match calculate_braking_distance v d, calculate_stopping_time v d with
  | Ok x, Ok t => 0 < d ∧ x == v / 2 * t
  | Raise e, Raise e' => d <= 0 ∧ e = ValueError ∧ e' = ValueError
  | _, _ => False
  end.
Proof.
  unfold calculate_braking_distance, calculate_stopping_time.
  destruct (Qleb d 0) eqn:E.
  - apply Qleb_true in E. done.
  - apply Qleb_false in E. split; [done |]. unfold np_div. simpl. field. lra.
Qed.

(** Work and energy: braking force times braking distance is the kinetic
    energy [m v^2 / 2]. *)
Theorem braking_force_times_distance (m v d : Q) :
  0 < d →
  ∃ x, calculate_braking_distance v d = Ok x
       ∧ calculate_braking_force m d * x == m * v ^ 2 / 2.
Proof.
  intros H. unfold calculate_braking_distance, calculate_braking_force.
  assert (E : Qleb d 0 = false) by by apply Qleb_false.
  rewrite E. eexists. split; [reflexivity |].
  unfold np_div. simpl. field. lra.
Qed.

End BrakingFormulaFacts.

(** ** Further invariants of [calculate_acceleration_profile] *)

Section AccelInvariants.

Import Config Accel.

Variable train_config : TrainConfig.
Variables slope_percent distance_m v_max dt : Q.
Variables A B C adhesion_coef tunnel_factor curve_resistance max_acc : Q.

Abbreviation run := (calculate_acceleration_profile train_config
                       slope_percent distance_m v_max dt A B C adhesion_coef
                       tunnel_factor curve_resistance max_acc).
Abbreviation xstate_at := (Accel.state_at train_config slope_percent v_max dt
                             A B C adhesion_coef tunnel_factor
                             curve_resistance max_acc).
Abbreviation xv_at := (Accel.v_at train_config slope_percent v_max dt
                         A B C adhesion_coef tunnel_factor curve_resistance
                         max_acc).
Abbreviation xs_at := (Accel.s_at train_config slope_percent v_max dt
                         A B C adhesion_coef tunnel_factor curve_resistance
                         max_acc).
Abbreviation xa_at := (Accel.a_at train_config slope_percent v_max dt
                         A B C adhesion_coef tunnel_factor curve_resistance
                         max_acc).
Abbreviation xF_at := (Accel.F_at train_config slope_percent v_max dt
                         A B C adhesion_coef tunnel_factor curve_resistance
                         max_acc).

Lemma accel_inv (p : profile) :
  run = Ok p →
  ∃ nz k, requested_steps distance_m dt = Ok nz ∧ (1 ≤ nz)%Z
          ∧ (k < Z.to_nat nz)%nat
          ∧ distance p = xs_at <$> seq 0 (S k)
          ∧ speed p = xv_at <$> seq 0 (S k)
          ∧ acceleration p = xa_at <$> seq 0 (S k)
          ∧ tractive_effort p = xF_at <$> seq 0 (S k).
Proof.
  intros H. apply accel_run_inv in H as (nz & Hreq & Hnz & ->).
  eexists nz, _. split; [done |]. split; [done |].
  split; [apply accel_stop_index_range; lia |]. done.
Qed.

(** The four arrays of a returned profile have one common length, which
    is at least 1 and at most the requested step count. *)
Theorem acceleration_arrays_aligned (p : profile) :
  calculate_acceleration_profile train_config slope_percent distance_m
    v_max dt A B C adhesion_coef tunnel_factor curve_resistance max_acc
  = Ok p →
  ∃ nz, requested_steps distance_m dt = Ok nz
    ∧ (1 ≤ length (distance p) ≤ Z.to_nat nz)%nat
    ∧ length (speed p) = length (distance p)
    ∧ length (acceleration p) = length (distance p)
    ∧ length (tractive_effort p) = length (distance p).
Proof.
  intros H.
  apply accel_inv in H as (nz & k & Hreq & Hnz & Hk & -> & -> & -> & ->).
  exists nz. rewrite !length_fmap, !length_seq. repeat split; [done | lia | lia].
Qed.




(** From index 1 on, the applied traction is the constant
    [min(tractive_effort_n, adhesion_coef * mass_kg * g)]; it exceeds
    neither limit. *)
Theorem tractive_effort_entries (p : profile) :
  calculate_acceleration_profile train_config slope_percent distance_m
    v_max dt A B C adhesion_coef tunnel_factor curve_resistance max_acc
  = Ok p →
  ∀ i F, (1 ≤ i)%nat → tractive_effort p !! i = Some F →
    F = py_min (tractive_effort_n train_config)
               (adhesion_coef * mass_kg train_config * g)
    ∧ F <= tractive_effort_n train_config
    ∧ F <= adhesion_coef * mass_kg train_config * g.
Proof.
  intros H i F Hi HF.
  apply accel_inv in H as (nz & k & _ & _ & _ & _ & _ & _ & Ht).
  rewrite Ht in HF. apply profile_upto_lookup in HF as [_ ->].
  destruct i as [| j]; [lia |].
  unfold Accel.F_at. cbn [Accel.state_at].
  destruct (xstate_at j) as [[[s v] a] F0]. cbn [Accel.next_state fst snd].
  split; [done |].
  destruct (py_min_cases (tractive_effort_n train_config)
              (adhesion_coef * mass_kg train_config * g))
    as [[-> ?] | [-> ?]]; lra.
Qed.



Lemma accel_standstill_v (i : nat) : v_max <= 0 → xv_at i = 0.
Proof.
  intros Hv. destruct i as [| j]; [done |].
  unfold Accel.v_at. cbn [Accel.state_at].
  destruct (xstate_at j) as [[[s v] a] F]. cbn [Accel.next_state fst snd].
  match goal with |- py_max 0 (py_min ?x v_max) = 0 =>
    pose proof (py_min_upper x v_max);
    destruct (py_max_cases 0 (py_min x v_max)) as [[_ ?] | [-> _]];
    [lra | done]
  end.
Qed.

Lemma accel_standstill_s (i : nat) : v_max <= 0 → xs_at i == 0.
Proof.
  intros Hv. induction i as [| i IH]; [done |].
  rewrite accel_s_at_step, IH, (accel_standstill_v (S i) Hv). ring.
Qed.

(** A speed cap that is not positive keeps the train at rest: for
    [distance > 0] and [dt > 0] the stopping condition never fires, all
    [floor(distance / dt) + 1] entries are returned, and every speed is
    exactly 0. *)
Theorem speed_cap_zero_never_moves :
  v_max <= 0 → 0 < distance_m → 0 < dt →
  ∃ p,
    calculate_acceleration_profile train_config slope_percent distance_m
      v_max dt A B C adhesion_coef tunnel_factor curve_resistance max_acc
    = Ok p
    ∧ length (speed p) = Z.to_nat (Qfloor (distance_m / dt) + 1)
    ∧ (∀ i v, speed p !! i = Some v → v = 0)
    ∧ (∀ i s, distance p !! i = Some s → s == 0).
Proof.
  intros Hv Hd Hdt.
  destruct (requested_steps_valid distance_m dt ltac:(lra) Hdt)
    as [Hreq Hfl].
  set (nz := (Qfloor (distance_m / dt) + 1)%Z) in *.
  eexists. split; [apply accel_run_ok; [exact Hreq | lia] |].
  cbn [speed distance Accel.profile_upto].
  rewrite length_fmap, length_seq. split; [| split].
  - unfold Accel.stop_index.
    destruct (find _ (seq 1 (Z.to_nat nz - 1))) as [j |] eqn:E; simpl.
    + apply find_seq_range in E as [_ Hs]. unfold Accel.stops in Hs.
      apply Qleb_true in Hs. rewrite (accel_standstill_s j Hv) in Hs. lra.
    + lia.
  - intros i v Hi. apply profile_upto_lookup in Hi as [_ ->].
    by apply accel_standstill_v.
  - intros i s Hi. apply profile_upto_lookup in Hi as [_ ->].
    by apply accel_standstill_s.
Qed.

End AccelInvariants.

(** ** Further invariants of [calculate_braking_profile] *)

Section BrakingInvariants.

Import Braking.

Variable np_sqrt : Q → Q.
Variables initial_speed distance_m : Q.
Variable slope_profile : option (list Q).
Variables deceleration_profile min_dec max_dec dt g : Q.

Abbreviation brun := (calculate_braking_profile np_sqrt initial_speed
                        distance_m slope_profile deceleration_profile
                        min_dec max_dec dt g).
Abbreviation ystate_at := (Braking.state_at np_sqrt initial_speed
                             slope_profile deceleration_profile min_dec
                             max_dec dt g).
Abbreviation yv_at := (Braking.v_at np_sqrt initial_speed slope_profile
                         deceleration_profile min_dec max_dec dt g).
Abbreviation ys_at := (Braking.s_at np_sqrt initial_speed slope_profile
                         deceleration_profile min_dec max_dec dt g).
Abbreviation ya_at := (Braking.a_at np_sqrt initial_speed slope_profile
                         deceleration_profile min_dec max_dec dt g).
Abbreviation ystop_index := (Braking.stop_index np_sqrt initial_speed
                               distance_m slope_profile deceleration_profile
                               min_dec max_dec dt g).
Abbreviation ydec := (clamped_dec slope_profile deceleration_profile
                        min_dec max_dec g).

Lemma covers_cases (sl : option (list Q)) (k : nat) :
  Braking.covers sl k ∨ ∃ sp, sl = Some sp ∧ (length sp < k)%nat.
Proof.
  destruct sl as [sp |]; [| by left]. simpl.
  destruct (decide (k ≤ length sp)%nat); [by left |].
  right. exists sp. split; [done | lia].
Qed.

Lemma braking_inv (p : profile) :
  brun = Ok p →
  ∃ nz k, requested_steps distance_m dt = Ok nz ∧ (1 ≤ nz)%Z
          ∧ (k < Z.to_nat nz)%nat
          ∧ distance p = ys_at <$> seq 0 (S k)
          ∧ speed p = yv_at <$> seq 0 (S k)
          ∧ deceleration p = ya_at <$> seq 0 (S k).
Proof.
  intros H. destruct (requested_steps distance_m dt) as [nz | e] eqn:E.
  - destruct (Z.lt_trichotomy nz 0) as [Hneg | [-> | Hpos]].
    + rewrite (braking_run_negative _ _ _ _ _ _ _ _ _ nz E Hneg) in H.
      discriminate.
    + rewrite (braking_run_empty _ _ _ _ _ _ _ _ _ E) in H. discriminate.
    + pose proof (braking_stop_index_range np_sqrt initial_speed distance_m
                    slope_profile deceleration_profile min_dec max_dec dt g
                    (Z.to_nat nz) ltac:(lia)) as Hk.
      destruct (covers_cases slope_profile (ystop_index (Z.to_nat nz)))
        as [Hc | (sp & Hsp & Hlt)].
      * rewrite (braking_run_ok _ _ _ _ _ _ _ _ _ nz E ltac:(lia) Hc) in H.
        injection H as <-. exists nz, (ystop_index (Z.to_nat nz)).
        split; [done |]. split; [lia |]. split; [lia | done].
      * rewrite (braking_run_uncovered _ _ _ _ _ _ _ _ _ nz sp E ltac:(lia)
                   Hsp Hlt) in H.
        discriminate.
  - rewrite (braking_run_raises _ _ _ _ _ _ _ _ _ e E) in H. discriminate.
Qed.

(** The three arrays of a returned profile have one common length
    between 1 and the requested step count, and they start with
    [s = 0], [v = initial_speed] and a deceleration entry of 0. *)
Theorem braking_arrays_aligned (p : profile) :
  calculate_braking_profile np_sqrt initial_speed distance_m slope_profile
    deceleration_profile min_dec max_dec dt g = Ok p →
  ∃ nz, requested_steps distance_m dt = Ok nz
    ∧ (1 ≤ length (distance p) ≤ Z.to_nat nz)%nat
    ∧ length (speed p) = length (distance p)
    ∧ length (deceleration p) = length (distance p)
    ∧ distance p !! 0%nat = Some 0
    ∧ speed p !! 0%nat = Some initial_speed
    ∧ deceleration p !! 0%nat = Some 0.
Proof.
  intros H. apply braking_inv in H as (nz & k & Hreq & Hnz & Hk & -> & -> & ->).
  exists nz. rewrite !length_fmap, !length_seq.
  repeat split; [done | lia | lia].
Qed.

Lemma braking_a_at_succ (i : nat) : ya_at (S i) = ydec i.
Proof.
  unfold Braking.a_at. cbn [Braking.state_at].
  by destruct (ystate_at i) as [[s v] a].
Qed.

Lemma clamped_dec_range (j : nat) :
  (min_dec <= max_dec → min_dec <= ydec j <= max_dec)
  ∧ (max_dec < min_dec → ydec j = min_dec).
Proof.
  unfold clamped_dec.
  match goal with |- context [py_min ?x max_dec] =>
    pose proof (py_min_upper x max_dec) as Hu;
    destruct (py_max_cases min_dec (py_min x max_dec)) as [[E ?] | [E ?]]
  end; rewrite E; split; intros; try lra; done.
Qed.

(** From index 1 on, every deceleration entry is the clamped value: inside
    [[min_dec, max_dec]] when the bounds are ordered, and equal to
    [min_dec] when they are inverted. *)
Theorem deceleration_entries_clamped (p : profile) :
  calculate_braking_profile np_sqrt initial_speed distance_m slope_profile
    deceleration_profile min_dec max_dec dt g = Ok p →
  ∀ i d, (1 ≤ i)%nat → deceleration p !! i = Some d →
    (min_dec <= max_dec → min_dec <= d <= max_dec)
    ∧ (max_dec < min_dec → d = min_dec).
Proof.
  intros H i d Hi Hd.
  apply braking_inv in H as (nz & k & _ & _ & _ & _ & _ & Ha).
  rewrite Ha in Hd. apply profile_upto_lookup in Hd as [_ ->].
  destruct i as [| j]; [lia |]. rewrite braking_a_at_succ.
  apply clamped_dec_range.
Qed.

(** With [initial_speed >= 0] and [dt >= 0] no speed is negative and the
    distances never decrease, whatever the deceleration bounds are. *)
Theorem braking_speed_nonnegative_distance_monotone (p : profile) :
  0 <= initial_speed → 0 <= dt →
  calculate_braking_profile np_sqrt initial_speed distance_m slope_profile
    deceleration_profile min_dec max_dec dt g = Ok p →
  (∀ i v, speed p !! i = Some v → 0 <= v)
  ∧ (∀ i x y, distance p !! i = Some x → distance p !! S i = Some y → x <= y).
Proof.
  intros Hv Hdt H.
  apply braking_inv in H as (nz & k & _ & _ & _ & Hs & Hsp & _).
  rewrite Hs, Hsp. split.
  - intros i v Hi. apply profile_upto_lookup in Hi as [_ ->].
    by apply braking_v_at_nonneg.
  - intros i x y Hx Hy.
    apply profile_upto_lookup in Hx as [_ ->].
    apply profile_upto_lookup in Hy as [_ ->].
    rewrite braking_s_at_step.
    pose proof (braking_v_at_nonneg np_sqrt initial_speed slope_profile
                  deceleration_profile min_dec max_dec dt g (S i) Hv).
    nra.
Qed.



(** The closed-form helpers use the opposite sign convention: every
    deceleration entry the integrator produces under negative bounds is
    refused by [calculate_braking_distance] and [calculate_stopping_time]. *)
Theorem integrator_decelerations_refused_by_helpers (p : profile) (v : Q) :
  min_dec < 0 → max_dec < 0 →
  calculate_braking_profile np_sqrt initial_speed distance_m slope_profile
    deceleration_profile min_dec max_dec dt g = Ok p →
  ∀ i d, deceleration p !! i = Some d →
    BrakingFormulas.calculate_braking_distance v d = Raise ValueError
    ∧ BrakingFormulas.calculate_stopping_time v d = Raise ValueError.
Proof.
  intros Hmin Hmax H i d Hd.
  apply braking_inv in H as (nz & k & _ & _ & _ & _ & _ & Ha).
  rewrite Ha in Hd. apply profile_upto_lookup in Hd as [_ ->].
  assert (Hle : ya_at i <= 0).
  { destruct i as [| j]; [done |]. rewrite braking_a_at_succ.
    pose proof (clamped_dec_negative slope_profile deceleration_profile
                  min_dec max_dec g j Hmin Hmax). lra. }
  apply Qleb_true in Hle.
  unfold BrakingFormulas.calculate_braking_distance,
    BrakingFormulas.calculate_stopping_time.
  by rewrite Hle.
Qed.

(** A train that is already at rest stops in the first step: with
    [initial_speed <= 0], negative bounds and at least two requested
    steps, the profile has exactly two entries and ends at speed 0. *)
Theorem braking_from_rest :
  initial_speed <= 0 → min_dec < 0 → max_dec < 0 →
  0 < dt → dt <= distance_m → Braking.covers slope_profile 1 →
  ∃ p,
    calculate_braking_profile np_sqrt initial_speed distance_m slope_profile
      deceleration_profile min_dec max_dec dt g = Ok p
    ∧ speed p = [initial_speed; 0]
    ∧ length (distance p) = 2%nat
    ∧ length (deceleration p) = 2%nat.
Proof.
  intros Hv Hmin Hmax Hdt Hd Hc.
  destruct (requested_steps_valid distance_m dt ltac:(lra) Hdt)
    as [Hreq Hfl].
  assert (Hone : (1 ≤ Qfloor (distance_m / dt))%Z).
  { assert (H : 1 <= distance_m / dt).
    { apply Qle_shift_div_l; [done | lra]. }
    apply (Qfloor_resp_le 1 (distance_m / dt) H). }
  set (nz := (Qfloor (distance_m / dt) + 1)%Z) in *.
  assert (Hv1 : yv_at 1 = 0).
  { rewrite braking_v_at_step. cbv zeta.
    pose proof (clamped_dec_negative slope_profile deceleration_profile
                  min_dec max_dec g 0 Hmin Hmax) as Hdec.
    set (dec := clamped_dec _ _ _ _ _ _) in *.
    set (d := py_max _ (1 # 1000000)).
    assert (Hdpos : 0 < d).
    { pose proof (py_max_second
                   (np_div (yv_at 0 + np_sqrt (py_max 0 (2 * dec + yv_at 0 ^ 2))) 2)
                   (1 # 1000000)) as H.
      fold d in H. assert (0 < 1 # 1000000) by reflexivity. lra. }
    assert (Hq : np_div (dec * 1) d < 0).
    { unfold np_div. apply Qlt_shift_div_r; [done | lra]. }
    change (yv_at 0) with initial_speed in *.
    destruct (py_max_cases 0 (initial_speed + np_div (dec * 1) d))
      as [[_ ?] | [-> _]]; [lra | done]. }
  assert (Hstop : ystop_index (Z.to_nat nz) = 1%nat).
  { unfold Braking.stop_index.
    replace (Z.to_nat nz - 1)%nat with (S (Z.to_nat nz - 2)) by lia.
    rewrite find_seq_here; [done |].
    unfold Braking.stops. rewrite Hv1. done. }
  eexists. split.
  - apply braking_run_ok; [exact Hreq | lia | by rewrite Hstop].
  - rewrite Hstop. cbn [speed distance deceleration Braking.profile_upto].
    rewrite !length_fmap, !length_seq. split; [| done].
    cbn [seq fmap list_fmap]. by rewrite Hv1.
Qed.

End BrakingInvariants.

(** ** Coverage of the interval calculators *)

Section Coverage.

Import Slope Curve.

Lemma last_index_below (P : nat → Prop) (m : nat) :
  (∀ j, Decision (P j)) → P 0%nat →
  ∃ j, (j ≤ m)%nat ∧ P j ∧ (j = m ∨ ¬ P (S j)).
Proof.
  intros Hdec H0. induction m as [| m IH].
  - exists 0%nat. split; [lia |]. split; [done | by left].
  - destruct IH as (j & Hj & HP & Hend). destruct Hend as [-> | Hnot].
    + destruct (Hdec (S m)) as [HS | HS].
      * exists (S m). split; [lia |]. split; [done | by left].
      * exists m. split; [lia |]. split; [done | by right].
    + exists j. split; [lia |]. split; [done | by right].
Qed.

Variables (pos : list Q) (lo hi : Q).

Hypothesis Hinc : strictly_increasing pos.
Hypothesis Hlen : (2 ≤ length pos)%nat.

(** Some interval overlaps the span [[lo, hi]] exactly when the span
    starts before the last breakpoint and ends at or after the first. *)
Lemma overlapping_nonempty :
  lo <= hi →
  (overlapping_intervals pos lo hi ≠ []
   ↔ nth 0 pos 0 <= hi ∧ lo < nth (length pos - 1) pos 0).
Proof.
  intros Hspan.
  assert (Hpt : ∀ j, (j < length pos)%nat → pos !! j = Some (nth j pos 0)).
  { intros j Hj. destruct (nth_lookup_or_length pos j 0); [done | lia]. }
  assert (Hmono : ∀ i j, (i ≤ j)%nat → (j < length pos)%nat →
            nth i pos 0 <= nth j pos 0).
  { intros i j Hij Hj. destruct (decide (i = j)) as [-> | Hne]; [lra |].
    apply Qlt_le_weak.
    apply (strictly_increasing_lt pos i j); [done | lia | |];
      apply Hpt; lia. }
  split.
  - intros Hne.
    destruct (overlapping_intervals pos lo hi) as [| j I] eqn:E; [done |].
    assert (Hj : j ∈ overlapping_intervals pos lo hi) by (rewrite E; left).
    apply overlapping_elem in Hj as (p0 & p1 & H0 & H1 & Hlo & Hhi).
    pose proof (lookup_lt_Some _ _ _ H1) as Hlt.
    rewrite (Hpt j ltac:(lia)) in H0. injection H0 as <-.
    rewrite (Hpt (S j) Hlt) in H1. injection H1 as <-.
    pose proof (Hmono 0%nat j ltac:(lia) ltac:(lia)).
    pose proof (Hmono (S j) (length pos - 1)%nat ltac:(lia) ltac:(lia)).
    split; lra.
  - intros [Hfirst Hlast].
    destruct (last_index_below (λ j, nth j pos 0 <= hi) (length pos - 2))
      as (j & Hj & HP & Hend).
    + intros j. destruct (Qlt_le_dec hi (nth j pos 0)) as [H | H].
      * right. lra.
      * by left.
    + done.
    + assert (Hin : j ∈ overlapping_intervals pos lo hi).
      { apply overlapping_elem.
        exists (nth j pos 0), (nth (S j) pos 0).
        split; [apply Hpt; lia |]. split; [apply Hpt; lia |].
        split; [| done].
        destruct Hend as [-> | Hnot].
        - by replace (S (length pos - 2)) with (length pos - 1)%nat by lia.
        - lra. }
      intros E. rewrite E in Hin. by apply not_elem_of_nil in Hin.
Qed.

End Coverage.

Section CoverageStatements.

Import Slope Curve.

Lemma slope_at_nan_iff (pos vals : list Q) (L xp : Q) :
  length vals = (length pos - 1)%nat →
  (slope_at pos vals L xp = Ok None
   ↔ overlapping_intervals pos (xp - L) xp = []).
Proof.
  intros Hlen. split; [| by apply slope_at_none].
  intros H.
  destruct (overlapping_intervals pos (xp - L) xp) as [| j [| j' I]] eqn:E.
  - done.
  - rewrite (slope_at_single pos vals L xp Hlen j E) in H. discriminate.
  - destruct (slope_at_several pos vals L xp Hlen) as (x & Hx & _).
    + rewrite E. simpl. lia.
    + rewrite Hx in H. discriminate.
Qed.


Lemma span_uncovered_iff (pos : list Q) (L xp : Q) :
  strictly_increasing pos → (2 ≤ length pos)%nat → 0 <= L →
  (overlapping_intervals pos (xp - L) xp = []
   ↔ xp < nth 0 pos 0 ∨ nth (length pos - 1) pos 0 <= xp - L).
Proof.
  intros Hinc Hlen HL.
  pose proof (overlapping_nonempty pos (xp - L) xp Hinc Hlen ltac:(lra))
    as Hne.
  split.
  - intros E.
    destruct (Qlt_le_dec xp (nth 0 pos 0)) as [H1 | H1]; [by left |].
    destruct (Qlt_le_dec (xp - L) (nth (length pos - 1) pos 0))
      as [H2 | H2]; [| by right].
    exfalso. by apply (proj2 Hne).
  - intros Hout.
    destruct (overlapping_intervals pos (xp - L) xp) as [| j I] eqn:E;
      [done |].
    destruct (proj1 Hne ltac:(done)) as [H1 H2]. lra.
Qed.

(** For a valid slope profile with at least two breakpoints and a train
    length that is not negative, the equivalent slope at [xp] is NaN
    exactly when the train head is before the first breakpoint or the
    train tail is at or past the last one. *)
Theorem equivalent_slope_nan_iff_off_track (pos vals : list Q) (L xp : Q) :
  valid_profile pos vals → (2 ≤ length pos)%nat → 0 <= L →
  (slope_at pos vals L xp = Ok None
   ↔ xp < nth 0 pos 0 ∨ nth (length pos - 1) pos 0 <= xp - L).
Proof.
  intros [Hinc Hlen] H2 HL.
  rewrite (slope_at_nan_iff pos vals L xp Hlen).
  by apply span_uncovered_iff.
Qed.


End CoverageStatements.

(** ** Roeckl's formula and the sign of the curve resistance *)

Section RoecklFacts.

Import Curve.

Lemma unit_resistance_positive (r : Q) :
  30 < r → 0 < unit_resistance (Finite r).
Proof.
  intros H. unfold unit_resistance, np_div.
  destruct (Qltb r 300) eqn:E.
  - apply Qlt_shift_div_l; lra.
  - apply Qltb_false in E. apply Qlt_shift_div_l; lra.
Qed.

(** The unit resistance is positive for a radius above 30 m, negative
    below 30 m, and 0 on straight track. *)
Theorem unit_resistance_sign (r : Q) :
  (30 < r → 0 < unit_resistance (Finite r))
  ∧ (r < 30 → unit_resistance (Finite r) < 0)
  ∧ unit_resistance Straight = 0.
Proof.
  split; [| split; [| done]].
  - apply unit_resistance_positive.
  - intros H. unfold unit_resistance, np_div.
    assert (E : Qltb r 300 = true) by (apply Qltb_true; lra).
    rewrite E.
    assert (Heq : (491 # 100) / (r - 30) == - ((491 # 100) / (30 - r)))
      by (field; lra).
    rewrite Heq.
    assert (0 < (491 # 100) / (30 - r)); [| lra].
    apply Qlt_shift_div_l; lra.
Qed.

(** On each branch the unit resistance falls as the radius grows, but it
    jumps up at the branch point: every radius from 221 m up to (not
    including) 300 m gets less resistance than the wider 300 m curve. *)
Theorem unit_resistance_not_monotone (r1 r2 : Q) :
  (30 < r1 → r1 < r2 → r2 < 300 →
   unit_resistance (Finite r2) < unit_resistance (Finite r1))
  ∧ (300 <= r1 → r1 < r2 →
     unit_resistance (Finite r2) < unit_resistance (Finite r1))
  ∧ (221 <= r1 → r1 < 300 →
     unit_resistance (Finite r1) < unit_resistance (Finite 300)).
Proof.
  assert (Hdiv : ∀ c a b, 0 < c → 0 < a → a < b → c / b < c / a).
  { intros c a b Hc Ha Hab.
    apply Qlt_shift_div_r; [lra |].
    assert (Heq : c / a * b == c * (b / a)) by (field; lra).
    rewrite Heq.
    assert (1 < b / a) by (apply Qlt_shift_div_l; lra). nra. }
  split; [| split].
  - intros H1 H12 H2. unfold unit_resistance, np_div.
    assert (E1 : Qltb r1 300 = true) by (apply Qltb_true; lra).
    assert (E2 : Qltb r2 300 = true) by (apply Qltb_true; lra).
    rewrite E1, E2. apply Hdiv; lra.
  - intros H1 H12. unfold unit_resistance, np_div.
    assert (E1 : Qltb r1 300 = false) by (apply Qltb_false; lra).
    assert (E2 : Qltb r2 300 = false) by (apply Qltb_false; lra).
    rewrite E1, E2. apply Hdiv; lra.
  - intros H1 H2. unfold unit_resistance, np_div.
    assert (E1 : Qltb r1 300 = true) by (apply Qltb_true; lra).
    rewrite E1. change (Qltb 300 300) with false. cbv iota.
    apply Qlt_shift_div_r; [lra |].
    assert (Heq : (63 # 10) / (300 - 55) * (r1 - 30)
                  == (63 # 2450) * (r1 - 30)) by (field; lra).
    rewrite Heq.
    lra.
Qed.

Lemma list_upper_bound (l : list Q) : ∃ b, 0 <= b ∧ Forall (λ x, x <= b) l.
Proof.
  induction l as [| x l (b & Hb & Hall)].
  - exists 0. split; [lra | constructor].
  - destruct (Qlt_le_dec b x) as [H | H].
    + exists x. split; [lra |]. constructor; [lra |].
      eapply Forall_impl; [exact Hall |]. simpl. intros y Hy. lra.
    + exists b. split; [done |]. by constructor.
Qed.

(** For a valid curve profile whose radii are all above 30 m or straight
    and a mass that is not negative, no produced resistance is negative:
    every entry is NaN or at least 0. *)
Theorem curve_resistance_nonnegative (pos : list Q) (radii : list radius)
    (x_pos : list Q) (L m : Q) :
  valid_profile pos radii →
  Forall (λ r, match r with Finite r => 30 < r | Straight => True end) radii →
  0 <= m →
  ∃ out, calculate_curve_resistance pos radii x_pos L m = Ok out
    ∧ length out = length x_pos
    ∧ Forall (λ o, match o with None => True | Some x => 0 <= x end) out.
Proof.
  intros Hvalid Hr Hm.
  destruct (list_upper_bound ((λ r, unit_resistance r * m) <$> radii))
    as (b & Hb & Hall).
  assert (Hbounds : Forall (λ r, 0 <= unit_resistance r * m <= b) radii).
  { rewrite Forall_fmap in Hall. rewrite Forall_forall in *.
    intros r Hin. split; [| by apply Hall].
    specialize (Hr r Hin). destruct r as [r |].
    - pose proof (unit_resistance_positive r Hr). nra.
    - simpl. lra. }
  unfold calculate_curve_resistance.
  destruct (mapM_result_Forall (resistance_at pos radii L m)
              (λ o, match o with None => True | Some x => 0 <= x <= b end)
              x_pos) as (out & Hout & Hres & Hlen).
  - intros xp _. by apply resistance_at_bounded.
  - exists out. split; [done |]. split; [done |].
    eapply Forall_impl; [exact Hres |]. intros [x |]; [| done].
    simpl. lra.
Qed.

End RoecklFacts.

(** ** Edge cases of the interval calculators *)

Section IntervalEdgeCases.

Import Slope Curve.

Lemma mapM_result_const {A B} (f : A → result B) (y : B) (l : list A) :
  (∀ x, x ∈ l → f x = Ok y) → mapM f l = Ok (replicate (length l) y).
Proof.
  induction l as [| x l IH]; intros H; [done |].
  simpl. rewrite (H x) by left. simpl.
  rewrite IH by (intros z Hz; apply H; by right). done.
Qed.

Lemma no_interval (pos : list Q) (lo hi : Q) :
  (length pos ≤ 1)%nat → overlapping_intervals pos lo hi = [].
Proof.
  intros H. unfold overlapping_intervals.
  by replace (length pos - 1)%nat with 0%nat by lia.
Qed.

(** A profile with fewer than two breakpoints has no interval: every
    sample is NaN, and the value arrays are never read. *)
Theorem fewer_than_two_breakpoints_all_nan (pos vals : list Q)
    (radii : list radius) (x_pos : list Q) (L m : Q) :
  (length pos ≤ 1)%nat →
  calculate_equivalent_slope pos vals x_pos L
  = Ok (replicate (length x_pos) None)
  ∧ calculate_curve_resistance pos radii x_pos L m
    = Ok (replicate (length x_pos) None).
Proof.
  intros H. split.
  - apply mapM_result_const. intros xp _. unfold slope_at.
    by rewrite np_where_overlapping, (no_interval pos _ _ H).
  - apply mapM_result_const. intros xp _. unfold resistance_at.
    by rewrite np_where_overlapping, (no_interval pos _ _ H).
Qed.

Lemma slope_loop_raises (pos vals : list Q) (lo hi : Q) (n : nat)
    (I : list nat) (i : nat) (acc : Q) :
  Forall (λ j, (S j < length pos)%nat) I →
  Exists (λ j, (length vals ≤ j)%nat) I →
  for_each (enumerate_from i I) (Slope.add_segment pos vals lo hi n) acc
  = Raise IndexError.
Proof.
  revert i acc. induction I as [| j I IH]; intros i acc Hpos Hex.
  - by apply Exists_nil in Hex.
  - apply Forall_cons in Hpos as [Hj Hpos].
    cbn [enumerate_from for_each Slope.add_segment].
    destruct (decide (length vals ≤ j)%nat) as [Hshort | Hok].
    + rewrite (getitem_None vals j Hshort).
      by destruct (i =? 0)%nat, (i =? n - 1)%nat.
    + apply Exists_cons in Hex as [Hex | Hex]; [lia |].
      rewrite (getitem_nth vals j 0) by lia.
      rewrite Nat.add_1_r.
      rewrite (getitem_nth pos (S j) 0 Hj).
      rewrite (getitem_nth pos j 0) by lia.
      destruct (i =? 0)%nat; [by apply IH |].
      destruct (i =? n - 1)%nat; by apply IH.
Qed.

Lemma mapM_result_raises {A B} (f : A → result B) (e : exn) (l : list A) :
  (∀ x e', x ∈ l → f x = Raise e' → e' = e) →
  (∃ x, x ∈ l ∧ f x = Raise e) →
  mapM f l = Raise e.
Proof.
  induction l as [| x l IH]; intros Honly (y & Hy & Hf).
  - by apply not_elem_of_nil in Hy.
  - simpl. destruct (f x) as [b | e'] eqn:E.
    + simpl. rewrite IH; [done | |].
      * intros z e' Hz. apply Honly. by right.
      * apply elem_of_cons in Hy as [-> | Hy]; [congruence |].
        by exists y.
    + simpl. f_equal. apply (Honly x e'); [left | done].
Qed.

Lemma for_each_index_errors_only {A S} (l : list A)
    (body : S → A → result S) (acc : S) :
  (∀ s x, index_errors_only (body s x)) →
  index_errors_only (for_each l body acc).
Proof.
  intros H. revert acc. induction l as [| x l IH]; intros acc.
  - apply index_errors_only_Ok.
  - simpl. apply index_errors_only_bind; [apply H | intros s; apply IH].
Qed.

Lemma slope_at_index_errors_only (pos vals : list Q) (L xp : Q) :
  index_errors_only (slope_at pos vals L xp).
Proof.
  unfold slope_at.
  repeat first
    [ apply index_errors_only_bind; [| intros ?]
    | apply index_errors_only_getitem
    | apply index_errors_only_Ok
    | apply for_each_index_errors_only; intros ? [? ?];
      unfold Slope.add_segment
    | match goal with
      | |- index_errors_only (if ?b then _ else _) => destruct b
      end ].
Qed.

(** When the value array has no entry for an interval that a sample
    overlaps, the whole call raises [IndexError]: no partial array is
    returned. *)
Theorem equivalent_slope_missing_value_raises (pos vals x_pos : list Q)
    (L : Q) (xp : Q) (j : nat) :
  xp ∈ x_pos →
  j ∈ overlapping_intervals pos (xp - L) xp →
  (length vals ≤ j)%nat →
  calculate_equivalent_slope pos vals x_pos L = Raise IndexError.
Proof.
  intros Hxp Hj Hshort. unfold calculate_equivalent_slope.
  apply mapM_result_raises.
  - intros x e _. apply slope_at_index_errors_only.
  - exists xp. split; [done |]. unfold slope_at.
    rewrite np_where_overlapping.
    set (I := overlapping_intervals pos (xp - L) xp) in *.
    assert (Hpos : Forall (λ j, (S j < length pos)%nat) I).
    { apply Forall_forall. intros k Hk.
      apply overlapping_elem in Hk as (p0 & p1 & _ & H1 & _).
      by apply lookup_lt_Some in H1. }
    destruct I as [| j0 [| j1 I']] eqn:E.
    + by apply not_elem_of_nil in Hj.
    + apply list_elem_of_singleton in Hj as ->. simpl.
      by rewrite (getitem_None vals j0 Hshort).
    + cbn [length Nat.eqb Nat.ltb Nat.leb]. unfold enumerate.
      rewrite slope_loop_raises; [done | done |].
      apply Exists_exists. by exists j.
Qed.

(** A train of length 0 reads the slope at a point: for a valid profile
    the result is NaN or the value of the interval [j] with
    [pos[j] <= xp < pos[j+1]]; at a breakpoint this is the interval that
    starts there. *)
Theorem zero_length_train_reads_point (pos vals : list Q) (L xp : Q) :
  valid_profile pos vals → L == 0 →
  slope_at pos vals L xp = Ok None
  ∨ ∃ j p0 p1 v,
      pos !! j = Some p0 ∧ pos !! S j = Some p1 ∧ vals !! j = Some v
      ∧ p0 <= xp ∧ xp < p1
      ∧ slope_at pos vals L xp = Ok (Some v).
Proof.
  intros [Hinc Hlen] HL.
  pose proof (overlapping_contiguous pos (xp - L) xp Hinc) as Hseq.
  cbv zeta in Hseq.
  set (I := overlapping_intervals pos (xp - L) xp) in *.
  destruct (decide (2 ≤ length I)%nat) as [Hmany | Hfew].
  { destruct (several_geometry pos (xp - L) xp Hinc (hd 0%nat I) (length I)
                Hseq Hmany) as (_ & _ & _ & _ & Hspan).
    lra. }
  destruct I as [| j [| j' I']] eqn:E; [| | simpl in Hfew; lia].
  - left. by apply slope_at_none.
  - right.
    assert (Hj : j ∈ overlapping_intervals pos (xp - L) xp)
      by (fold I; rewrite E; left).
    apply overlapping_elem in Hj as (p0 & p1 & H0 & H1 & Hlo & Hhi).
    pose proof (lookup_lt_Some _ _ _ H1) as Hlt.
    destruct (lookup_lt_is_Some_2 vals j) as [v Hv]; [lia |].
    exists j, p0, p1, v. repeat split; [done | done | done | done | lra |].
    rewrite (slope_at_single pos vals L xp Hlen j); [| by fold I].
    by rewrite (nth_lookup_Some _ _ _ _ Hv).
Qed.

End IntervalEdgeCases.

(** ** The block scheduler on valid inputs *)

Section BlockStatements.

Import Blocks.



Lemma enumerate_from_lookup {A} (l : list A) (i k : nat) :
  enumerate_from i l !! k = (λ x, ((i + k)%nat, x)) <$> l !! k.
Proof.
  revert i k. induction l as [| x l IH]; intros i k; [done |].
  destruct k as [| k]; simpl.
  - by rewrite Nat.add_0_r.
  - rewrite IH. by replace (S i + k)%nat with (i + S k)%nat by lia.
Qed.



Variables speed_profile time_profile release_speed : list Q.
Variable train_length : Q.
Variables overlap release_time setting_time : list Q.
Variables reserve_before_arrival v_tol : Q.

Abbreviation brow := (block_row speed_profile time_profile release_speed
                        train_length overlap release_time setting_time
                        reserve_before_arrival v_tol).


Variable block_positions : list Z.
Variable position_profile : list Q.



(** With fewer release speeds than blocks the scheduler raises
    [IndexError], whatever the other arguments are: no partial table is
    returned. *)
Theorem block_occupancy_missing_release_speed :
  (length release_speed < length block_positions)%nat →
  calculate_block_occupancy block_positions speed_profile
    position_profile time_profile release_speed train_length overlap
    release_time setting_time reserve_before_arrival v_tol
  = Raise IndexError.
Proof.
  intros Hlt. unfold calculate_block_occupancy.
  apply mapM_result_raises.
  - intros [k bp] e _ He.
    by apply (block_row_index_errors_only speed_profile time_profile
                release_speed train_length overlap release_time
                setting_time reserve_before_arrival v_tol k bp).
  - destruct (lookup_lt_is_Some_2 block_positions (length release_speed))
      as [bp Hbp]; [lia |].
    exists (length release_speed, bp). split.
    + apply list_elem_of_lookup. exists (length release_speed).
      unfold enumerate. by rewrite enumerate_from_lookup, Hbp.
    + unfold block_row.
      rewrite (getitem_None release_speed (length release_speed)) by lia.
      reflexivity.
Qed.

End BlockStatements.

Section PipelineBlocks.

Import Config Accel Blocks.

Variable train_config : TrainConfig.
Variables slope_percent distance_m v_max dt A B C : Q.
Variables adhesion_coef tunnel_factor curve_resistance max_acc : Q.
Variable block_positions : list Z.
Variable release_speed : list Q.
Variable train_length : Q.
Variables overlap release_time setting_time : list Q.
Variables reserve_before_arrival v_tol : Q.



End PipelineBlocks.

(** ** Instances of the statements above *)

Section FormulaInstances.

Import BrakingFormulas.

Lemma braking_distance_cases_witness :
  calculate_braking_distance 20 0 = Raise ValueError
  ∧ ∃ x, calculate_braking_distance 20 1 = Ok x
         ∧ x * (2 * 1) == 20 ^ 2 ∧ 0 <= x.
Proof.
  split.
  - destruct (braking_distance_cases 20 0) as [H _]. apply H.
    unfold Qle. simpl. lia.
  - destruct (braking_distance_cases 20 1) as [_ H]. apply H.
    reflexivity.
Defined.

Lemma braking_force_times_distance_witness :
  ∃ x, calculate_braking_distance 20 1 = Ok x
       ∧ calculate_braking_force 50000 1 * x == 50000 * 20 ^ 2 / 2.
Proof. apply (braking_force_times_distance 50000 20 1). reflexivity. Defined.

End FormulaInstances.

Section AccelInstances.

Import Config Accel.

Let passenger : TrainConfig :=
  {| mass_kg := 50000; tractive_effort_n := 200000; train_type := "test" |}.

Lemma acceleration_arrays_aligned_witness :
  ∃ p,
    calculate_acceleration_profile passenger 1 20 55 1 1500 (25 # 10)
      (8 # 1000) (25 # 100) 0 1000 1 = Ok p
    ∧ ∃ nz, requested_steps 20 1 = Ok nz
        ∧ (1 ≤ length (distance p) ≤ Z.to_nat nz)%nat
        ∧ length (speed p) = length (distance p)
        ∧ length (acceleration p) = length (distance p)
        ∧ length (tractive_effort p) = length (distance p).
Proof.
  eexists. split; [vm_compute; reflexivity |].
  apply (acceleration_arrays_aligned passenger 1 20 55 1 1500 (25 # 10)
           (8 # 1000) (25 # 100) 0 1000 1).
  vm_compute. reflexivity.
Defined.


Lemma tractive_effort_entries_witness :
  ∃ p,
    calculate_acceleration_profile passenger 1 20 55 1 1500 (25 # 10)
      (8 # 1000) (25 # 100) 0 1000 1 = Ok p
    ∧ ∀ i F, (1 ≤ i)%nat → tractive_effort p !! i = Some F →
        F = py_min (tractive_effort_n passenger)
                   ((25 # 100) * mass_kg passenger * g)
        ∧ F <= tractive_effort_n passenger
        ∧ F <= (25 # 100) * mass_kg passenger * g.
Proof.
  eexists. split; [vm_compute; reflexivity |].
  apply (tractive_effort_entries passenger 1 20 55 1 1500 (25 # 10)
           (8 # 1000) (25 # 100) 0 1000 1).
  vm_compute. reflexivity.
Defined.


Lemma speed_cap_zero_never_moves_witness :
  ∃ p,
    calculate_acceleration_profile passenger 1 20 0 1 1500 (25 # 10)
      (8 # 1000) (25 # 100) 0 1000 1 = Ok p
    ∧ length (speed p) = Z.to_nat (Qfloor (20 / 1) + 1)
    ∧ (∀ i v, speed p !! i = Some v → v = 0)
    ∧ (∀ i s, distance p !! i = Some s → s == 0).
Proof.
  apply (speed_cap_zero_never_moves passenger 1 20 0 1 1500 (25 # 10)
           (8 # 1000) (25 # 100) 0 1000 1).
  - unfold Qle. simpl. lia.
  - reflexivity.
  - reflexivity.
Defined.

End AccelInstances.

Section BrakingInstances.

Import Braking.

Lemma braking_arrays_aligned_witness :
  ∃ p,
    calculate_braking_profile sqrt_trunc 3 10 None (-1) (-12 # 10) (-5 # 10)
                              1 (981 # 100) = Ok p
    ∧ ∃ nz, requested_steps 10 1 = Ok nz
        ∧ (1 ≤ length (distance p) ≤ Z.to_nat nz)%nat
        ∧ length (speed p) = length (distance p)
        ∧ length (deceleration p) = length (distance p)
        ∧ distance p !! 0%nat = Some 0
        ∧ speed p !! 0%nat = Some 3
        ∧ deceleration p !! 0%nat = Some 0.
Proof.
  eexists. split; [vm_compute; reflexivity |].
  apply (braking_arrays_aligned sqrt_trunc 3 10 None (-1) (-12 # 10)
           (-5 # 10) 1 (981 # 100)).
  vm_compute. reflexivity.
Defined.

Lemma deceleration_entries_clamped_witness :
  ∃ p,
    calculate_braking_profile sqrt_trunc 3 10 None (-1) (-12 # 10) (-5 # 10)
                              1 (981 # 100) = Ok p
    ∧ ∀ i d, (1 ≤ i)%nat → deceleration p !! i = Some d →
        (-12 # 10 <= -5 # 10 → -12 # 10 <= d <= -5 # 10)
        ∧ (-5 # 10 < -12 # 10 → d = -12 # 10).
Proof.
  eexists. split; [vm_compute; reflexivity |].
  apply (deceleration_entries_clamped sqrt_trunc 3 10 None (-1) (-12 # 10)
           (-5 # 10) 1 (981 # 100)).
  vm_compute. reflexivity.
Defined.

Lemma braking_speed_nonnegative_distance_monotone_witness :
  ∃ p,
    calculate_braking_profile sqrt_trunc 3 10 None (-1) (-12 # 10) (-5 # 10)
                              1 (981 # 100) = Ok p
    ∧ (∀ i v, speed p !! i = Some v → 0 <= v)
    ∧ (∀ i x y, distance p !! i = Some x → distance p !! S i = Some y
                → x <= y).
Proof.
  eexists. split; [vm_compute; reflexivity |].
  apply (braking_speed_nonnegative_distance_monotone sqrt_trunc 3 10 None
           (-1) (-12 # 10) (-5 # 10) 1 (981 # 100)).
  - unfold Qle. simpl. lia.
  - unfold Qle. simpl. lia.
  - vm_compute. reflexivity.
Defined.


Lemma integrator_decelerations_refused_by_helpers_witness :
  ∃ p,
    calculate_braking_profile sqrt_trunc 3 10 None (-1) (-12 # 10) (-5 # 10)
                              1 (981 # 100) = Ok p
    ∧ ∀ i d, deceleration p !! i = Some d →
        BrakingFormulas.calculate_braking_distance 3 d = Raise ValueError
        ∧ BrakingFormulas.calculate_stopping_time 3 d = Raise ValueError.
Proof.
  eexists. split; [vm_compute; reflexivity |].
  apply (integrator_decelerations_refused_by_helpers sqrt_trunc 3 10 None
           (-1) (-12 # 10) (-5 # 10) 1 (981 # 100)).
  - reflexivity.
  - reflexivity.
  - vm_compute. reflexivity.
Defined.

Lemma braking_from_rest_witness :
  ∃ p,
    calculate_braking_profile sqrt_trunc 0 10 None (-1) (-12 # 10) (-5 # 10)
                              1 (981 # 100) = Ok p
    ∧ speed p = [0; 0]
    ∧ length (distance p) = 2%nat
    ∧ length (deceleration p) = 2%nat.
Proof.
  apply (braking_from_rest sqrt_trunc 0 10 None (-1) (-12 # 10) (-5 # 10)
           1 (981 # 100)).
  - unfold Qle. simpl. lia.
  - reflexivity.
  - reflexivity.
  - reflexivity.
  - unfold Qle. simpl. lia.
  - exact I.
Defined.

End BrakingInstances.

Section IntervalInstances.

Import Profile Slope Curve.

Lemma equivalent_slope_nan_iff_off_track_witness :
  slope_at [0; 500; 1000] [1 # 100; 2 # 100] 100 1200 = Ok None.
Proof.
  apply (equivalent_slope_nan_iff_off_track [0; 500; 1000]
           [1 # 100; 2 # 100] 100 1200).
  - apply valid_profile_check_sound. reflexivity.
  - simpl. lia.
  - unfold Qle. simpl. lia.
  - right. unfold Qle. simpl. lia.
Defined.


Lemma unit_resistance_sign_witness :
  0 < unit_resistance (Finite 500) ∧ unit_resistance (Finite 20) < 0.
Proof.
  split.
  - destruct (unit_resistance_sign 500) as (H & _ & _). apply H.
    reflexivity.
  - destruct (unit_resistance_sign 20) as (_ & H & _). apply H.
    reflexivity.
Defined.

Lemma unit_resistance_not_monotone_witness :
  unit_resistance (Finite 200) < unit_resistance (Finite 100)
  ∧ unit_resistance (Finite 400) < unit_resistance (Finite 300)
  ∧ unit_resistance (Finite 250) < unit_resistance (Finite 300).
Proof.
  split; [| split].
  - destruct (unit_resistance_not_monotone 100 200) as (H & _ & _).
    apply H; reflexivity.
  - destruct (unit_resistance_not_monotone 300 400) as (_ & H & _).
    apply H; [unfold Qle; simpl; lia | reflexivity].
  - destruct (unit_resistance_not_monotone 250 300) as (_ & _ & H).
    apply H; [unfold Qle; simpl; lia | reflexivity].
Defined.

Lemma curve_resistance_nonnegative_witness :
  ∃ out,
    calculate_curve_resistance [0; 500; 1000] [Finite 500; Straight]
                               [0; 250; 550] 100 50000 = Ok out
    ∧ length out = 3%nat
    ∧ Forall (λ o, match o with None => True | Some x => 0 <= x end) out.
Proof.
  apply (curve_resistance_nonnegative [0; 500; 1000]
           [Finite 500; Straight] [0; 250; 550] 100 50000).
  - apply valid_profile_check_sound. reflexivity.
  - repeat constructor.
  - unfold Qle. simpl. lia.
Defined.

Lemma fewer_than_two_breakpoints_all_nan_witness :
  calculate_equivalent_slope [0] [] [0; 1] 100 = Ok [None; None]
  ∧ calculate_curve_resistance [0] [] [0; 1] 100 50000 = Ok [None; None].
Proof.
  apply (fewer_than_two_breakpoints_all_nan [0] [] [] [0; 1] 100 50000).
  simpl. lia.
Defined.

Lemma equivalent_slope_missing_value_raises_witness :
  calculate_equivalent_slope [0; 500; 1000] [1 # 100] [600] 100
  = Raise IndexError.
Proof.
  apply (equivalent_slope_missing_value_raises [0; 500; 1000] [1 # 100]
           [600] 100 600 1).
  - constructor.
  - vm_compute. constructor.
  - simpl. lia.
Defined.

Lemma zero_length_train_reads_point_witness :
  slope_at [0; 500; 1000] [1 # 100; 2 # 100] 0 250 = Ok None
  ∨ ∃ j p0 p1 v,
      [0; 500; 1000] !! j = Some p0 ∧ [0; 500; 1000] !! S j = Some p1
      ∧ [1 # 100; 2 # 100] !! j = Some v
      ∧ p0 <= 250 ∧ 250 < p1
      ∧ slope_at [0; 500; 1000] [1 # 100; 2 # 100] 0 250 = Ok (Some v).
Proof.
  apply (zero_length_train_reads_point [0; 500; 1000] [1 # 100; 2 # 100]
           0 250).
  - apply valid_profile_check_sound. reflexivity.
  - reflexivity.
Defined.

End IntervalInstances.

Section BlockInstances.

Import Config Blocks.

Let passenger : TrainConfig :=
  {| mass_kg := 50000; tractive_effort_n := 200000; train_type := "test" |}.


Lemma block_occupancy_missing_release_speed_witness :
  calculate_block_occupancy [1; 2]%Z [0; 5; 10; 10] [0; 3; 10; 20]
    [0; 1; 2; 3] [10] 1 [0; 0] [5; 5] [10; 10] 20 (1 # 10)
  = Raise IndexError.
Proof.
  apply (block_occupancy_missing_release_speed [0; 5; 10; 10] [0; 1; 2; 3]
           [10] 1 [0; 0] [5; 5] [10; 10] 20 (1 # 10) [1; 2]%Z
           [0; 3; 10; 20]).
  simpl. lia.
Defined.


End BlockInstances.
